(** * CppForge: the C++ project scaffolding script [cpp_project_setup.py]

    A shallow embedding of the script and the properties of its
    specification.

    - Python [str] values are sequences of Unicode code points ([list N]).
    - The regular expression of [is_valid_project_name] is kept as syntax
      and run by a small backtracking matcher that follows [re.match].
    - The filesystem is a finite map from paths to nodes; the operating
      system may refuse an operation, which the environment decides.
    - Effects (filesystem, log records, standard input, raised exceptions)
      are threaded through a state-and-exception monad. *)

From Stdlib Require Import Ascii String NArith ZArith Lia.
From stdpp Require Import base option list gmap.

Set Default Proof Using "Type".

(** ** Python strings *)

Abbreviation char := N (only parsing).
Abbreviation str := (list N) (only parsing).

(** A string literal of the source, as code points. *)
Definition lit (s : string) : str :=
  map N_of_ascii (list_ascii_of_string s).
Arguments lit s%_string.

(** The double quote, which the templates contain. *)
Definition dq : str := [34%N].
(** Line feed. *)
Definition LF : char := 10%N.

(** A triple-quoted block: every line of the literal ends in a line feed. *)
Definition text (lines : list str) : str :=
  concat (map (fun l => l ++ [LF]) lines).

(** [needle in hay] of Python, on strings. *)
Definition contains (hay needle : str) : Prop :=
  exists pre post, hay = pre ++ needle ++ post.

(** ** Regular expressions: the fragment [re.match] is used on *)

Module Re.

Inductive set_item :=
| Range (lo hi : char)
| Single (c : char).

Inductive node :=
| Bol                                  (* ^ *)
| Eol                                  (* $ *)
| OneOf (cls : list set_item)          (* [...] *)
| Plus (cls : list set_item).          (* [...]+ (greedy) *)

Definition in_item (c : char) (it : set_item) : bool :=
  match it with
  | Range lo hi => (lo <=? c)%N && (c <=? hi)%N
  | Single d => (c =? d)%N
  end.

Definition in_set (cls : list set_item) (c : char) : bool :=
  existsb (in_item c) cls.

(** Without MULTILINE, [$] matches at the end of the string and just
    before a line feed that ends the string. *)
Definition at_end (s : str) : bool :=
  match s with
  | [] => true
  | [c] => (c =? LF)%N
  | _ => false
  end.

(** [here pat at_start s]: match [pat] against a prefix of [s]; the
    result is the number of characters consumed. [at_start] tells
    whether [s] is the whole subject string. *)
Fixpoint here (pat : list node) (at_start : bool) (s : str) {struct pat}
  : option nat :=
  match pat with
  | [] => Some 0
  | Bol :: r => if at_start then here r at_start s else None
  | Eol :: r => if at_end s then here r at_start s else None
  | OneOf cls :: r =>
      match s with
      | c :: s' => if in_set cls c then S <$> here r false s' else None
      | [] => None
      end
  | Plus cls :: r =>
      (fix plus (s : str) : option nat :=
         match s with
         | c :: s' =>
             if in_set cls c then
               match plus s' with
               | Some n => Some (S n)            (* greedy: take more first *)
               | None => S <$> here r false s'   (* then the rest of the pattern *)
               end
             else None
         | [] => None
         end) s
  end.

(** [re.match(pat, s)]: a match anchored at position 0, or [None]. *)
Definition match_ (pat : list node) (s : str) : option nat :=
  here pat true s.

End Re.

(** Python's [bool(x)] on an optional match object. *)
Definition bool_of_match (m : option nat) : bool :=
  match m with Some _ => true | None => false end.

(** ** The script: constants *)

Definition SUBDIRS : list str :=
  [lit "src"; lit "include"; lit "lib"; lit "bin"; lit "tests"; lit "docs"].

(** The pattern [r"^[a-zA-Z0-9_-]+$"]. *)
Definition NAME_CLASS : list Re.set_item :=
  [Re.Range 97 122; Re.Range 65 90; Re.Range 48 57; Re.Single 95; Re.Single 45]%N.

Definition NAME_PATTERN : list Re.node :=
  [Re.Bol; Re.Plus NAME_CLASS; Re.Eol].

Definition is_valid_project_name (name : str) : bool :=
  bool_of_match (Re.match_ NAME_PATTERN name).

(** The character set of the specification: A-Z, a-z, 0-9, underscore
    and hyphen. *)
Definition allowed_char (c : char) : bool :=
  ((65 <=? c) && (c <=? 90) || (97 <=? c) && (c <=? 122)
   || (48 <=? c) && (c <=? 57) || (c =? 95) || (c =? 45))%N.


(** ** Paths and the filesystem *)

(** A [pathlib.Path] relative to the working directory, as its components
    with the last one first: the parent of a path is its tail, and [[]]
    is the working directory itself. *)
Abbreviation Path := (list (list N)) (only parsing).

(** [path / name] *)
Definition joinpath (p : Path) (name : str) : Path := name :: p.
Infix "//" := joinpath (at level 40, left associativity).

(** [Path(name)] for a name without a separator: one component. Every
    name the validator accepts is of this kind ([valid_name_no_separator]
    below). *)
Definition Path_of (name : str) : Path := [name].

Inductive node :=
| Dir
| File (content : str).

Abbreviation FS := (gmap (list (list N)) node) (only parsing).

Inductive errno :=
| EPERM | ENOENT | EIO | EACCES | EEXIST | ENOTDIR | EISDIR | ENOSPC | EROFS
| ENAMETOOLONG.

(** The environment of a run, which the script does not control: the
    operations the operating system refuses (by path, with the error it
    reports), and the programs on the execution path with the exit status
    they end with ([None]: no such program). *)
Record Env := {
  fault : Path -> option errno;
  exec : list str -> option Z
}.

(** ** Exceptions *)

Inductive exc_class :=
| BaseException | Exception | OSError | PermissionError | FileNotFoundError
| FileExistsError | NotADirectoryError | IsADirectoryError | SubprocessError
| CalledProcessError | KeyboardInterrupt | EOFError.

(** [IOError] is an alias of [OSError]. *)
Definition IOError : exc_class := OSError.

Inductive exn :=
| os_error (e : errno)
| called_process_error (returncode : Z)
| keyboard_interrupt
| eof_error.

(** The class Python raises for an operating system error. *)
Definition class_of_errno (e : errno) : exc_class :=
  match e with
  | EPERM | EACCES => PermissionError
  | ENOENT => FileNotFoundError
  | EEXIST => FileExistsError
  | ENOTDIR => NotADirectoryError
  | EISDIR => IsADirectoryError
  | _ => OSError
  end.

Definition class_of (x : exn) : exc_class :=
  match x with
  | os_error e => class_of_errno e
  | called_process_error _ => CalledProcessError
  | keyboard_interrupt => KeyboardInterrupt
  | eof_error => EOFError
  end.

Definition base (c : exc_class) : option exc_class :=
  match c with
  | BaseException => None
  | Exception | KeyboardInterrupt => Some BaseException
  | OSError | SubprocessError | EOFError => Some Exception
  | PermissionError | FileNotFoundError | FileExistsError
  | NotADirectoryError | IsADirectoryError => Some OSError
  | CalledProcessError => Some SubprocessError
  end.

Definition exc_class_eqb (c d : exc_class) : bool :=
  match c, d with
  | BaseException, BaseException | Exception, Exception | OSError, OSError
  | PermissionError, PermissionError | FileNotFoundError, FileNotFoundError
  | FileExistsError, FileExistsError | NotADirectoryError, NotADirectoryError
  | IsADirectoryError, IsADirectoryError | SubprocessError, SubprocessError
  | CalledProcessError, CalledProcessError
  | KeyboardInterrupt, KeyboardInterrupt | EOFError, EOFError => true
  | _, _ => false
  end.

(** [depth] bounds the walk up the hierarchy, which is three levels deep. *)
Fixpoint issubclass_upto (depth : nat) (c d : exc_class) : bool :=
  exc_class_eqb c d ||
  match depth, base c with
  | S n, Some b => issubclass_upto n b d
  | _, _ => false
  end.

Definition issubclass : exc_class -> exc_class -> bool := issubclass_upto 3.

(** [isinstance(x, (c1, ..., cn))] *)
Definition isinstance (x : exn) (classes : list exc_class) : bool :=
  existsb (issubclass (class_of x)) classes.

(** ** Log records *)

Inductive level := INFO | WARNING | ERROR.

Inductive arg :=
| a_str (s : str)
| a_path (p : Path)
| a_exn (x : exn).

(** A record keeps the format string and its arguments apart, as
    [logging.LogRecord] does. *)
Record LogRecord := {
  levelname : level;
  msg : str;
  args : list arg
}.

(** ** The world and the monad of the script *)

Inductive InputEvent :=
| Line (s : str)      (* a line typed by the user, without its line feed *)
| Interrupt.          (* Ctrl-C while the prompt waits *)

Record World := {
  env : Env;
  fs : FS;
  procs : list (list str * Path);   (* child processes that ended with status 0 *)
  stdin : list InputEvent;          (* what is left to read; the end is end-of-file *)
  log : list LogRecord
}.

Definition set_fs (f : FS) (w : World) : World :=
  {| env := env w; fs := f; procs := procs w; stdin := stdin w; log := log w |}.
Definition add_proc (p : list str * Path) (w : World) : World :=
  {| env := env w; fs := fs w; procs := procs w ++ [p]; stdin := stdin w; log := log w |}.
Definition set_stdin (i : list InputEvent) (w : World) : World :=
  {| env := env w; fs := fs w; procs := procs w; stdin := i; log := log w |}.
Definition add_log (r : LogRecord) (w : World) : World :=
  {| env := env w; fs := fs w; procs := procs w; stdin := stdin w; log := log w ++ [r] |}.

Inductive Result (A : Type) :=
| Ret (a : A)
| Raise (x : exn).
Arguments Ret {A} a.
Arguments Raise {A} x.

Definition M (A : Type) : Type := World -> Result A * World.

Definition ret {A} (a : A) : M A := fun w => (Ret a, w).

Definition raise {A} (x : exn) : M A := fun w => (Raise x, w).

Definition bind {A B} (m : M A) (k : A -> M B) : M B :=
  fun w =>
    match m w with
    | (Ret a, w') => k a w'
    | (Raise x, w') => (Raise x, w')
    end.

Declare Scope prog_scope.
Delimit Scope prog_scope with prog.
Bind Scope prog_scope with M.
Notation "x <- m ;; k" := (bind m (fun x => k))
  (at level 100, m at next level, right associativity) : prog_scope.
Notation "m ;; k" := (bind m (fun _ => k))
  (at level 100, right associativity) : prog_scope.
Open Scope prog_scope.

(** [try: body except classes as e: handler e] *)
Definition try_except {A} (body : M A) (classes : list exc_class)
    (handler : exn -> M A) : M A :=
  fun w =>
    match body w with
    | (Ret a, w') => (Ret a, w')
    | (Raise x, w') =>
        if isinstance x classes then handler x w' else (Raise x, w')
    end.

(** [if b: m] *)
Definition when (b : bool) (m : M unit) : M unit :=
  if b then m else ret tt.

(** [for x in l: body x] *)
Fixpoint for_each {A} (l : list A) (body : A -> M unit) : M unit :=
  match l with
  | [] => ret tt
  | x :: rest => body x ;; for_each rest body
  end.

Definition logging (lv : level) (m : str) (a : list arg) : M unit :=
  fun w => (Ret tt, add_log {| levelname := lv; msg := m; args := a |} w).
Definition logging_info := logging INFO.
Definition logging_warning := logging WARNING.
Definition logging_error := logging ERROR.

(** ** The operations of the platform the script calls *)

Definition is_dir (p : Path) (f : FS) : bool :=
  match p with
  | [] => true
  | _ :: _ => match f !! p with Some Dir => true | _ => false end
  end.

(** What stands in the way when the parent of a path is not a directory. *)
Definition parent_error (parent : Path) (f : FS) : errno :=
  match f !! parent with
  | Some (File _) => ENOTDIR
  | _ => ENOENT
  end.

(** [os.mkdir(p)] *)
Definition os_mkdir (en : Env) (p : Path) (f : FS) : errno + FS :=
  match p with
  | [] => inl EEXIST
  | _ :: parent =>
      match f !! p with
      | Some _ => inl EEXIST
      | None =>
          if is_dir parent f then
            match fault en p with
            | Some e => inl e
            | None => inr (<[p := Dir]> f)
            end
          else inl (parent_error parent f)
      end
  end.

Definition is_ENOENT (e : errno) : bool :=
  match e with ENOENT => true | _ => false end.

(** [Path.mkdir(parents=False, exist_ok=exist_ok)] *)
Definition mkdir_single (en : Env) (exist_ok : bool) (p : Path) (f : FS)
  : errno + FS :=
  match os_mkdir en p f with
  | inr f' => inr f'
  | inl e =>
      if is_ENOENT e then inl e
      else if exist_ok && is_dir p f then inr f else inl e
  end.

(** [Path.mkdir(parents=True, exist_ok=exist_ok)], as pathlib does it: try
    [os.mkdir]; on [FileNotFoundError] make the parent (with its own
    parents) and try once more without [parents]; on another [OSError]
    give in only if the directory is not there or [exist_ok] is off. *)
Fixpoint mkdir_parents (en : Env) (exist_ok : bool) (p : Path) (f : FS)
  : errno + FS :=
  match os_mkdir en p f with
  | inr f' => inr f'
  | inl e =>
      if is_ENOENT e then
        match p with
        | [] => inl e
        | _ :: parent =>
            match mkdir_parents en true parent f with
            | inl e' => inl e'
            | inr f1 => mkdir_single en exist_ok p f1
            end
        end
      else if exist_ok && is_dir p f then inr f else inl e
  end.

Definition Path_mkdir (p : Path) (parents exist_ok : bool) : M unit :=
  fun w =>
    match (if parents then mkdir_parents else mkdir_single)
            (env w) exist_ok p (fs w) with
    | inl e => (Raise (os_error e), w)
    | inr f' => (Ret tt, set_fs f' w)
    end.

(** Opening [p] for writing and storing [content] in it. *)
Definition os_write (en : Env) (p : Path) (content : str) (f : FS)
  : errno + FS :=
  match p with
  | [] => inl EISDIR
  | _ :: parent =>
      if is_dir parent f then
        match f !! p with
        | Some Dir => inl EISDIR
        | _ =>
            match fault en p with
            | Some e => inl e
            | None => inr (<[p := File content]> f)
            end
        end
      else inl (parent_error parent f)
  end.

Definition Path_write_text (p : Path) (content : str) : M unit :=
  fun w =>
    match os_write (env w) p content (fs w) with
    | inl e => (Raise (os_error e), w)
    | inr f' => (Ret tt, set_fs f' w)
    end.

(** [subprocess.run(cmd, cwd=cwd, check=check, stdout=PIPE, stderr=PIPE)]:
    what the child writes to the filesystem is its own business and is
    not part of this model; a child that ends with status 0 is recorded
    in [procs]. *)
Definition subprocess_run (cmd : list str) (cwd : Path) (check : bool)
  : M Z :=
  fun w =>
    match exec (env w) cmd with
    | None => (Raise (os_error ENOENT), w)
    | Some status =>
        if (status =? 0)%Z then (Ret status, add_proc (cmd, cwd) w)
        else if check then (Raise (called_process_error status), w)
        else (Ret status, w)
    end.

(** [input(prompt)] *)
Definition input_ (prompt : str) : M str :=
  fun w =>
    match stdin w with
    | [] => (Raise eof_error, w)
    | Interrupt :: rest => (Raise keyboard_interrupt, set_stdin rest w)
    | Line s :: rest => (Ret s, set_stdin rest w)
    end.

(** ** The script *)

Definition GITIGNORE_CONTENT : str :=
  text [
    lit "# Compiled object files";
    lit "*.o";
    lit "*.obj";
    lit "*.so";
    lit "*.a";
    lit "*.dll";
    lit "*.dylib";
    [];
    lit "# Executables";
    lit "*.exe";
    lit "*.out";
    lit "*.app";
    [];
    lit "# Build directories";
    lit "build/";
    lit "bin/";
    lit "lib/";
    [];
    lit "# IDE files";
    lit ".vscode/";
    lit ".idea/";
    lit ".history/";
    lit "*.suo";
    lit "*.user";
    lit "*.sdf";
    lit "*.opensdf";
    lit "*.sln.docstates";
    [];
    lit "# CMake files";
    lit "CMakeCache.txt";
    lit "CMakeFiles/";
    lit "cmake_install.cmake";
    lit "Makefile";
    [];
    lit "# Debug files";
    lit "*.dSYM/";
    lit "*.pdb";
    lit "*.ilk";
    [];
    lit "# Temporary files";
    lit "*.log";
    lit "*.tlog";
    lit "*.tmp";
    lit "*.temp";
    lit "*.swp";
    lit "*~";
    [];
    lit "# OS specific files";
    lit ".DS_Store";
    lit "Thumbs.db" ].

(** [bool: True if directory was created or already exists, False on error] *)
Definition create_directory (path : Path) : M bool :=
  try_except
    (Path_mkdir path true true ;;
     logging_info (lit "Created directory: %s") [a_path path] ;;
     ret true)
    [PermissionError; OSError]
    (fun e =>
       logging_error (lit "Error creating directory %s: %s") [a_path path; a_exn e] ;;
       ret false).

(** [bool: True if repository was initialized successfully, False otherwise] *)
Definition initialize_git_repo (path : Path) : M bool :=
  try_except
    (subprocess_run [lit "git"; lit "init"] path true ;;
     logging_info (lit "Initialized Git repository in: %s") [a_path path] ;;
     ret true)
    [CalledProcessError; FileNotFoundError]
    (fun e =>
       logging_error (lit "Error initializing Git repository: %s") [a_exn e] ;;
       ret false).

(** [bool: True if the file was created successfully, False otherwise] *)
Definition create_file (path : Path) (content : str) : M bool :=
  try_except
    (Path_write_text path content ;;
     logging_info (lit "Created file: %s") [a_path path] ;;
     ret true)
    [PermissionError; OSError]
    (fun e =>
       logging_error (lit "Error creating file %s: %s") [a_path path; a_exn e] ;;
       ret false).

Definition root_cmake_content (project_name : str) : str :=
  text [
    lit "cmake_minimum_required(VERSION 3.10)";
    lit "project(" ++ project_name ++ lit " VERSION 1.0 LANGUAGES CXX)";
    [];
    lit "set(CMAKE_CXX_STANDARD 17)";
    lit "set(CMAKE_CXX_STANDARD_REQUIRED True)";
    [];
    lit "# Set output directories";
    lit "set(CMAKE_RUNTIME_OUTPUT_DIRECTORY ${CMAKE_BINARY_DIR}/bin)";
    lit "set(CMAKE_LIBRARY_OUTPUT_DIRECTORY ${CMAKE_BINARY_DIR}/lib)";
    lit "set(CMAKE_ARCHIVE_OUTPUT_DIRECTORY ${CMAKE_BINARY_DIR}/lib)";
    [];
    lit "# Compiler flags";
    lit "if (CMAKE_CXX_COMPILER_ID STREQUAL " ++ dq ++ lit "GNU" ++ dq ++ lit " OR CMAKE_CXX_COMPILER_ID STREQUAL " ++ dq ++ lit "Clang" ++ dq ++ lit ")";
    lit "    add_compile_options(-Wall -Wextra -Wpedantic)";
    lit "elseif (CMAKE_CXX_COMPILER_ID STREQUAL " ++ dq ++ lit "MSVC" ++ dq ++ lit ")";
    lit "    add_compile_options(/W4 /permissive-)";
    lit "endif()";
    [];
    lit "add_subdirectory(src)";
    lit "add_subdirectory(tests)";
    lit "add_subdirectory(docs)" ].

Definition src_cmake_content : str :=
  text [
    lit "add_executable(${PROJECT_NAME} main.cpp)" ].

Definition tests_cmake_content : str :=
  text [
    lit "enable_testing()";
    lit "add_executable(${PROJECT_NAME}_test test_main.cpp)";
    lit "add_test(NAME ${PROJECT_NAME}_test COMMAND ${PROJECT_NAME}_test)" ].

Definition docs_cmake_content : str :=
  text [
    lit "find_package(Doxygen)";
    lit "if (DOXYGEN_FOUND)";
    lit "    configure_file(Doxyfile.in Doxyfile @ONLY)";
    lit "    add_custom_target(doc";
    lit "        COMMAND ${DOXYGEN_EXECUTABLE} Doxyfile";
    lit "        WORKING_DIRECTORY ${CMAKE_CURRENT_SOURCE_DIR}";
    lit "        COMMENT " ++ dq ++ lit "Generating API documentation with Doxygen" ++ dq;
    lit "        VERBATIM)";
    lit "endif()" ].

(** [bool: True if files were created successfully, False otherwise] *)
Definition create_cmake_files (path : Path) (project_name : str) : M bool :=
  try_except
    (create_file (path // lit "CMakeLists.txt") (root_cmake_content project_name) ;;
     create_file (path // lit "src" // lit "CMakeLists.txt") src_cmake_content ;;
     create_file (path // lit "tests" // lit "CMakeLists.txt") tests_cmake_content ;;
     create_file (path // lit "docs" // lit "CMakeLists.txt") docs_cmake_content ;;
     logging_info (lit "Created CMakeLists.txt files.") [] ;;
     ret true)
    [OSError; IOError]
    (fun e =>
       logging_error (lit "Error creating CMakeLists.txt files: %s") [a_exn e] ;;
       ret false).

Definition readme_content (project_name : str) : str :=
  text [
    lit "# " ++ project_name;
    [];
    lit "A C++ project.";
    [];
    lit "## Directory Structure";
    [];
    lit "- `src/`: Source files";
    lit "- `include/`: Header files";
    lit "- `lib/`: Libraries";
    lit "- `bin/`: Executable files";
    lit "- `tests/`: Unit tests";
    lit "- `docs/`: Documentation";
    [];
    lit "## Build Instructions";
    [];
    lit "[Add build instructions here]";
    [];
    lit "## Setup Instructions";
    [];
    lit "To set up this project, run the `cpp_project_setup.py` script in the folder where you want the C++ project folder to be created. For example:";
    [];
    lit "```sh";
    lit "python path/to/cpp_project_setup.py";
    lit "```";
    [];
    lit "## License";
    [];
    lit "[Add license information here]" ].

Definition main_cpp_content : str :=
  text [
    lit "#include <iostream>";
    [];
    lit "int main() {";
    lit "    std::cout << " ++ dq ++ lit "Hello, World!" ++ dq ++ lit " << std::endl;";
    lit "    return 0;";
    lit "}" ].

Definition header_content : str :=
  text [
    lit "#ifndef PROJECT_HEADER_H";
    lit "#define PROJECT_HEADER_H";
    [];
    lit "// Add your header content here";
    [];
    lit "#endif // PROJECT_HEADER_H" ].

Definition test_content : str :=
  text [
    lit "#include <iostream>";
    [];
    lit "int main() {";
    lit "    std::cout << " ++ dq ++ lit "Running tests..." ++ dq ++ lit " << std::endl;";
    lit "    // Add your test code here";
    lit "    return 0;";
    lit "}" ].

Definition PROMPT : str :=
  lit "Enter project name (alphanumeric, underscores, and hyphens only): ".

Definition is_empty (s : str) : bool :=
  match s with [] => true | _ => false end.

(** The [while True] loop of the prompt. Every turn reads one event of
    the standard input, so the loop is a recursion on what is left of it;
    [prompt_project_name_unfold] below shows that it is the loop of the
    source, built on [input_]. *)
Fixpoint prompt_loop (pending : list InputEvent) (w : World)
  : Result str * World :=
  match pending with
  | [] => (Raise eof_error, w)
  | Interrupt :: rest => (Raise keyboard_interrupt, set_stdin rest w)
  | Line project_name :: rest =>
      let w := set_stdin rest w in
      if is_empty project_name then
        prompt_loop rest
          (add_log {| levelname := ERROR;
                      msg := lit "Project name cannot be empty. Please try again.";
                      args := [] |} w)
      else if negb (is_valid_project_name project_name) then
        prompt_loop rest
          (add_log {| levelname := ERROR;
                      msg := lit "Invalid project name. Please use only alphanumeric characters, underscores, and hyphens.";
                      args := [] |} w)
      else (Ret project_name, w)
  end.

Definition prompt_project_name : M str :=
  fun w => prompt_loop (stdin w) w.

(** The body of [setup_cpp_project] once the name is known. *)
Definition scaffold (project_name : str) : M unit :=
  (* Create project root directory *)
  let root_dir := Path_of project_name in
  ok <- create_directory root_dir ;;
  if negb ok then
    logging_error (lit "Failed to create project directory. Setup aborted.") []
  else
  (* Create subdirectories *)
  for_each SUBDIRS (fun subdir =>
    let subdir_path := root_dir // subdir in
    ok <- create_directory subdir_path ;;
    when (negb ok)
      (logging_warning (lit "Failed to create %s directory. Continuing with setup...")
         [a_str subdir])) ;;
  (* Initialize Git repository *)
  ok <- initialize_git_repo root_dir ;;
  when (negb ok)
    (logging_warning (lit "Failed to initialize Git repository. Continuing with setup...") []) ;;
  (* Create .gitignore file *)
  ok <- create_file (root_dir // lit ".gitignore") GITIGNORE_CONTENT ;;
  when (negb ok)
    (logging_warning (lit "Failed to create .gitignore file. Continuing with setup...") []) ;;
  (* Create README.md file *)
  ok <- create_file (root_dir // lit "README.md") (readme_content project_name) ;;
  when (negb ok)
    (logging_warning (lit "Failed to create README.md file. Continuing with setup...") []) ;;
  (* Create CMakeLists.txt files *)
  ok <- create_cmake_files root_dir project_name ;;
  when (negb ok)
    (logging_warning (lit "Failed to create CMakeLists.txt files. Continuing with setup...") []) ;;
  (* Create basic source files *)
  ok <- create_file (root_dir // lit "src" // lit "main.cpp") main_cpp_content ;;
  when (negb ok)
    (logging_warning (lit "Failed to create main.cpp file. Continuing with setup...") []) ;;
  ok <- create_file (root_dir // lit "include" // lit "project_header.h") header_content ;;
  when (negb ok)
    (logging_warning (lit "Failed to create header file. Continuing with setup...") []) ;;
  ok <- create_file (root_dir // lit "tests" // lit "test_main.cpp") test_content ;;
  when (negb ok)
    (logging_warning (lit "Failed to create test file. Continuing with setup...") []) ;;
  logging_info (LF :: lit "Project setup complete!") [] ;;
  logging_info (lit "Project '%s' has been created with the following structure:")
    [a_str project_name] ;;
  logging_info (lit "- %s/") [a_str project_name] ;;
  for_each SUBDIRS (fun subdir => logging_info (lit "  - %s/") [a_str subdir]) ;;
  logging_info (lit "  - .gitignore") [] ;;
  logging_info (lit "  - README.md") [] ;;
  logging_info (lit "  - CMakeLists.txt") [] ;;
  logging_info (LF :: lit "You can now navigate to your project directory: cd %s")
    [a_str project_name].

Definition setup_cpp_project : M unit :=
  logging_info (lit "C++ Project Setup Tool") [] ;;
  logging_info (lit "======================") [] ;;
  (* Prompt user for project name *)
  project_name <- prompt_project_name ;;
  scaffold project_name.

(** The exit status of the process: the [__main__] block. An exception
    that nothing catches ends the interpreter with status 1. *)
Definition main (w : World) : Z * World :=
  match setup_cpp_project w with
  | (Ret _, w') => (0%Z, w')
  | (Raise x, w') =>
      if isinstance x [KeyboardInterrupt] then
        match logging_error (LF :: lit "Setup aborted by user.") [] w' with
        | (_, w'') => (1%Z, w'')      (* sys.exit(1) *)
        end
      else (1%Z, w')
  end.

(** ** Vocabulary of the statements *)

#[global] Instance node_eq_dec : EqDecision node.
Proof. solve_decision. Defined.
#[global] Instance errno_eq_dec : EqDecision errno.
Proof. solve_decision. Defined.
#[global] Instance exn_eq_dec : EqDecision exn.
Proof. solve_decision. Defined.
#[global] Instance level_eq_dec : EqDecision level.
Proof. solve_decision. Defined.
#[global] Instance arg_eq_dec : EqDecision arg.
Proof. solve_decision. Defined.
#[global] Instance LogRecord_eq_dec : EqDecision LogRecord.
Proof. solve_decision. Defined.
#[global] Instance InputEvent_eq_dec : EqDecision InputEvent.
Proof. solve_decision. Defined.

(** The record [create_file] logs for a write that went through. *)
Definition created_file (p : Path) : LogRecord :=
  {| levelname := INFO; msg := lit "Created file: %s"; args := [a_path p] |}.

(** The record [create_directory] logs when the directory is there. *)
Definition created_directory (p : Path) : LogRecord :=
  {| levelname := INFO; msg := lit "Created directory: %s"; args := [a_path p] |}.

(** The warning of the orchestrator for the build descriptors. *)
Definition cmake_warning : LogRecord :=
  {| levelname := WARNING;
     msg := lit "Failed to create CMakeLists.txt files. Continuing with setup...";
     args := [] |}.

(** The first record of the Report step. *)
Definition setup_complete : LogRecord :=
  {| levelname := INFO; msg := LF :: lit "Project setup complete!"; args := [] |}.

(** The error record of an aborted run. *)
Definition setup_aborted : LogRecord :=
  {| levelname := ERROR;
     msg := lit "Failed to create project directory. Setup aborted.";
     args := [] |}.

(** The files a run for the name [N] writes, with their content. *)
Definition generated_files (N : str) : list (Path * str) :=
  let root_dir := Path_of N in
  [ (root_dir // lit ".gitignore", GITIGNORE_CONTENT);
    (root_dir // lit "README.md", readme_content N);
    (root_dir // lit "CMakeLists.txt", root_cmake_content N);
    (root_dir // lit "src" // lit "CMakeLists.txt", src_cmake_content);
    (root_dir // lit "tests" // lit "CMakeLists.txt", tests_cmake_content);
    (root_dir // lit "docs" // lit "CMakeLists.txt", docs_cmake_content);
    (root_dir // lit "src" // lit "main.cpp", main_cpp_content);
    (root_dir // lit "include" // lit "project_header.h", header_content);
    (root_dir // lit "tests" // lit "test_main.cpp", test_content) ].

(** The directories a run for the name [N] makes. *)
Definition project_dirs (N : str) : list Path :=
  Path_of N :: map (fun d => Path_of N // d) SUBDIRS.

(** The whole tree of the project [N]: path and node. *)
Definition project_tree (N : str) : list (Path * node) :=
  map (fun p => (p, Dir)) (project_dirs N)
  ++ map (fun pc => (pc.1, File pc.2)) (generated_files N).

(** [p] lies in the tree rooted at the entry [N] of the working directory. *)
Definition under (N : str) (p : Path) : Prop :=
  exists rel, p = rel ++ [N].

(** Nothing is there yet under the name [N]. *)
Definition fresh (N : str) (f : FS) : Prop :=
  forall p, under N p -> f !! p = None.

(** The operating system refuses nothing under the name [N]. *)
Definition nominal (N : str) (en : Env) : Prop :=
  forall p, under N p -> fault en p = None.

(** An invariant of the world that a computation keeps, whatever it
    returns or raises. *)
Definition preserves {A} (I : World -> Prop) (m : M A) : Prop :=
  forall w r w', I w -> m w = (r, w') -> I w'.

(** A computation that always returns (never raises). *)
Definition returns {A} (m : M A) : Prop :=
  forall w, exists a w', m w = (Ret a, w').

(** Worlds to run the script in. *)
Definition no_fault : Path -> option errno := fun _ => None.
Definition with_git (status : Z) : list str -> option Z :=
  fun cmd => if decide (cmd = [lit "git"; lit "init"]) then Some status else None.
Definition without_git : list str -> option Z := fun _ => None.

Definition start (en : Env) (f : FS) (input : list InputEvent) : World :=
  {| env := en; fs := f; procs := []; stdin := input; log := [] |}.

(** What a failed [create_directory] logs. *)
Definition directory_error (p : Path) (e : errno) : LogRecord :=
  {| levelname := ERROR; msg := lit "Error creating directory %s: %s";
     args := [a_path p; a_exn (os_error e)] |}.

(** What a failed [create_file] logs. *)
Definition file_error (p : Path) (e : errno) : LogRecord :=
  {| levelname := ERROR; msg := lit "Error creating file %s: %s";
     args := [a_path p; a_exn (os_error e)] |}.

Definition GIT_INIT : list str := [lit "git"; lit "init"].

Definition git_initialized (p : Path) : LogRecord :=
  {| levelname := INFO; msg := lit "Initialized Git repository in: %s";
     args := [a_path p] |}.

Definition git_error (x : exn) : LogRecord :=
  {| levelname := ERROR; msg := lit "Error initializing Git repository: %s";
     args := [a_exn x] |}.

(** [f'] is [f] with some new directories: nothing that was there has
    changed. *)
Definition grows (f f' : FS) : Prop :=
  forall q, f' !! q = f !! q \/ (f !! q = None /\ f' !! q = Some Dir).

(** Every entry lies in a directory. *)
Definition well_formed (f : FS) : Prop :=
  forall name parent, is_Some (f !! (name :: parent)) -> is_dir parent f = true.

(** Nothing stands in the way of making the directory [p]: no file sits
    at [p] or above it, and the operating system refuses nothing there. *)
Definition clear_way (en : Env) (f : FS) (p : Path) : Prop :=
  forall q, q `suffix_of` p ->
    fault en q = None /\ forall c, f !! q <> Some (File c).

(** [a] is a value [m] can return. *)
Definition possible {A} (m : M A) (a : A) : Prop :=
  exists w w', m w = (Ret a, w').

(** Every file the log reports as created holds the content the
    templates give for the name [N]. *)
Definition files_inv (N : str) (w : World) : Prop :=
  forall p, created_file p ∈ log w ->
    exists c, (p, c) ∈ generated_files N /\ fs w !! p = Some (File c).

(** Every directory the log reports as created is there. *)
Definition dirs_inv (w : World) : Prop :=
  forall p, created_directory p ∈ log w -> is_dir p (fs w) = true.

(** The orchestrator has not warned about the build descriptors. *)
Definition no_cmake_warning (w : World) : Prop :=
  cmake_warning ∉ log w.

(** The world after the two lines of the banner. *)
Definition greeted (w : World) : World :=
  add_log {| levelname := INFO; msg := lit "======================"; args := [] |}
    (add_log {| levelname := INFO; msg := lit "C++ Project Setup Tool"; args := [] |} w).

(** From a world with [P] the computation returns, in a world with [Q]. *)
Definition total {A} (P : World -> Prop) (m : M A) (Q : A -> World -> Prop)
  : Prop :=
  forall w, P w -> exists a w', m w = (Ret a, w') /\ Q a w'.

(** The world has the environment [en] and the filesystem [F]. *)
Definition at_fs (en : Env) (F : FS) (w : World) : Prop :=
  env w = en /\ fs w = F.

(** The filesystem after the entries of [l] were made one after the other. *)
Definition make_all (l : list (Path * node)) (f : FS) : FS :=
  foldl (fun F pn => <[pn.1 := pn.2]> F) f l.

(** Sample worlds. *)
Definition my_app : str := lit "my-app".

(** Nothing refused, git installed, empty working directory. *)
Definition world_plain : World :=
  start {| fault := no_fault; exec := with_git 0 |} ∅ [Line my_app].

(** The same without git, and with a first answer the validator rejects. *)
Definition world_without_git : World :=
  start {| fault := no_fault; exec := without_git |} ∅
    [Line (lit "bad name!"); Line my_app].

(** Every file named [CMakeLists.txt] is refused (permission denied). *)
Definition deny_cmake : Path -> option errno :=
  fun p =>
    match p with
    | name :: _ => if decide (name = lit "CMakeLists.txt") then Some EACCES else None
    | [] => None
    end.

Definition world_cmake_denied : World :=
  start {| fault := deny_cmake; exec := with_git 0 |} ∅ [Line my_app].

(** Nothing may be created at all (read-only working directory). *)
Definition world_read_only : World :=
  start {| fault := fun _ => Some EROFS; exec := with_git 0 |} ∅ [Line my_app].

(** The standard input is at its end. *)
Definition world_eof : World :=
  start {| fault := no_fault; exec := with_git 0 |} ∅ [].

(** The subdirectory [lib] cannot be made (permission denied). *)
Definition deny_lib : Path -> option errno :=
  fun p =>
    match p with
    | name :: _ => if decide (name = lit "lib") then Some EACCES else None
    | [] => None
    end.

Definition world_lib_denied : World :=
  start {| fault := deny_lib; exec := without_git |} ∅ [Line my_app].

(** The warning of the orchestrator for a subdirectory. *)
Definition subdir_warning (subdir : str) : LogRecord :=
  {| levelname := WARNING;
     msg := lit "Failed to create %s directory. Continuing with setup...";
     args := [a_str subdir] |}.

(** The warning of the orchestrator for the repository. *)
Definition git_warning : LogRecord :=
  {| levelname := WARNING;
     msg := lit "Failed to initialize Git repository. Continuing with setup...";
     args := [] |}.

(** What the prompt logs for a line it rejects. *)
Definition prompt_error (s : str) : LogRecord :=
  if is_empty s then
    {| levelname := ERROR;
       msg := lit "Project name cannot be empty. Please try again.";
       args := [] |}
  else
    {| levelname := ERROR;
       msg := lit "Invalid project name. Please use only alphanumeric characters, underscores, and hyphens.";
       args := [] |}.

(** What the handler of the [__main__] block logs. *)
Definition aborted_by_user : LogRecord :=
  {| levelname := ERROR; msg := LF :: lit "Setup aborted by user."; args := [] |}.

(** The world [w] after more input was read and more records were logged. *)
Definition after_prompt (rest : list InputEvent) (records : list LogRecord)
    (w : World) : World :=
  {| env := env w; fs := fs w; procs := procs w; stdin := rest;
     log := log w ++ records |}.

(** The two records of the banner. *)
Definition banner : list LogRecord :=
  [ {| levelname := INFO; msg := lit "C++ Project Setup Tool"; args := [] |};
    {| levelname := INFO; msg := lit "======================"; args := [] |} ].

(** What a run for the name [N] may have done to the filesystem [f0]: an
    entry is as it was, or it is a new directory of the project, or it is
    a generated file with the content of its template, at a path where no
    directory was. *)
Definition touched (N : str) (f0 : FS) (w : World) : Prop :=
  forall p,
    fs w !! p = f0 !! p
    \/ (f0 !! p = None /\ fs w !! p = Some Dir /\ p ∈ project_dirs N)
    \/ (exists c, (p, c) ∈ generated_files N /\ fs w !! p = Some (File c)
                  /\ f0 !! p <> Some Dir).

(** The world has the environment [en] and has run the programs [l]. *)
Definition ran (en : Env) (l : list (list (list N) * list (list N)))
    (w : World) : Prop :=
  env w = en /\ procs w = l.

(** Did [git init] end with status 0 in this environment? *)
Definition git_ok (en : Env) : bool :=
  match exec en GIT_INIT with
  | Some status => (status =? 0)%Z
  | None => false
  end.

(** Did [create_directory] answer [True]? *)
Definition answered_true (r : Result bool) : bool :=
  match r with Ret true => true | _ => false end.

(** The generated files as entries of the filesystem. *)
Definition file_entries (N : str) : list (Path * node) :=
  map (fun pc => (pc.1, File pc.2)) (generated_files N).

(** A warning of the orchestrator that carries no argument. *)
Definition warning (m : str) : LogRecord :=
  {| levelname := WARNING; msg := m; args := [] |}.

(** The files whose failure the orchestrator warns about, each with its
    content and its warning. The build descriptors are not among them. *)
Definition warned_files (N : str) : list (Path * str * LogRecord) :=
  let root_dir := Path_of N in
  [ (root_dir // lit ".gitignore", GITIGNORE_CONTENT,
     warning (lit "Failed to create .gitignore file. Continuing with setup..."));
    (root_dir // lit "README.md", readme_content N,
     warning (lit "Failed to create README.md file. Continuing with setup..."));
    (root_dir // lit "src" // lit "main.cpp", main_cpp_content,
     warning (lit "Failed to create main.cpp file. Continuing with setup..."));
    (root_dir // lit "include" // lit "project_header.h", header_content,
     warning (lit "Failed to create header file. Continuing with setup..."));
    (root_dir // lit "tests" // lit "test_main.cpp", test_content,
     warning (lit "Failed to create test file. Continuing with setup...")) ].

(** The records at the end of [setup_cpp_project]. *)
Definition report (N : str) : list LogRecord :=
  [ setup_complete;
    {| levelname := INFO;
       msg := lit "Project '%s' has been created with the following structure:";
       args := [a_str N] |};
    {| levelname := INFO; msg := lit "- %s/"; args := [a_str N] |} ]
  ++ map (fun subdir =>
            {| levelname := INFO; msg := lit "  - %s/"; args := [a_str subdir] |})
       SUBDIRS
  ++ [ {| levelname := INFO; msg := lit "  - .gitignore"; args := [] |};
       {| levelname := INFO; msg := lit "  - README.md"; args := [] |};
       {| levelname := INFO; msg := lit "  - CMakeLists.txt"; args := [] |};
       {| levelname := INFO;
          msg := LF :: lit "You can now navigate to your project directory: cd %s";
          args := [a_str N] |} ].

(** [x] came into the list [l] after it was [l0]. *)
Definition since {A} (l0 : list A) (x : A) (l : list A) : Prop :=
  exists new, l = l0 ++ new /\ x ∈ new.

(** A world later in a run that began in the environment [en] with the
    log [l0]. *)
Definition later (en : Env) (l0 : list LogRecord) (w : World) : Prop :=
  env w = en /\ l0 `prefix_of` log w.

(** The log is [l0], then some records, then [l]. *)
Definition reported (l0 l : list LogRecord) (w : World) : Prop :=
  exists before, log w = l0 ++ before ++ l.

(** Everything is refused but the entry [my-app] itself; git is missing. *)
Definition root_only : Path -> option errno :=
  fun p => if decide (p = Path_of my_app) then None else Some EACCES.

Definition world_root_only : World :=
  start {| fault := root_only; exec := without_git |} ∅ [Line my_app].

(** * Properties *)

(** ** The name validator *)

Lemma in_set_NAME_CLASS (c : char) : Re.in_set NAME_CLASS c = allowed_char c.
Proof.
  unfold Re.in_set, NAME_CLASS, allowed_char; simpl.
  destruct (97 <=? c)%N, (c <=? 122)%N, (65 <=? c)%N, (c <=? 90)%N,
    (48 <=? c)%N, (c <=? 57)%N, (c =? 95)%N, (c =? 45)%N; reflexivity.
Qed.

Lemma is_valid_nil : is_valid_project_name [] = false.
Proof. reflexivity. Qed.

(** One step of the matcher on the pattern of the script. *)
Lemma is_valid_cons (c : char) (s : str) :
  is_valid_project_name (c :: s)
  = allowed_char c && (is_valid_project_name s || Re.at_end s).
Proof.
  unfold is_valid_project_name, Re.match_, NAME_PATTERN.
  cbn -[Re.in_set Re.at_end NAME_CLASS].
  rewrite in_set_NAME_CLASS.
  destruct (allowed_char c); [|reflexivity]; simpl.
  match goal with |- context [match ?t with Some _ => _ | None => _ end] =>
    destruct t end; simpl; [reflexivity|].
  destruct (Re.at_end s); reflexivity.
Qed.

(** The matcher accepts exactly the non-empty strings of allowed
    characters, and those followed by one line feed. *)
Lemma is_valid_spec (s : str) :
  is_valid_project_name s = true <->
  exists body, body <> [] /\ Forall (fun c => allowed_char c = true) body
               /\ (s = body \/ s = body ++ [LF]).
Proof.
  induction s as [|c s IH].
  - rewrite is_valid_nil. split; [discriminate|].
    intros (body & Hne & _ & [H|H]); [congruence|].
    destruct body; discriminate.
  - rewrite is_valid_cons, andb_true_iff, orb_true_iff, IH. split.
    + intros [Hc [(body & Hne & Hall & Hs)|Hend]].
      * exists (c :: body). split; [discriminate|]. split; [by constructor|].
        destruct Hs as [->| ->]; [by left|by right].
      * exists [c]. split; [discriminate|]. split; [by repeat constructor|].
        destruct s as [|d [|? ?]]; try discriminate; [by left|].
        simpl in Hend. apply N.eqb_eq in Hend as ->. by right.
    + intros (body & Hne & Hall & Hs).
      destruct body as [|b body]; [congruence|].
      inversion Hall as [|? ? Hb Hall']; subst.
      assert (c = b /\ (s = body \/ s = body ++ [LF])) as [-> Hs'].
      { destruct Hs as [Hs|Hs]; simpl in Hs; inversion Hs; auto. }
      split; [done|].
      destruct body as [|b' body].
      * right. destruct Hs' as [->| ->]; reflexivity.
      * left. exists (b' :: body). by split.
Qed.

(** C3: every non-empty string whose characters all belong to A-Z, a-z,
    0-9, underscore and hyphen is accepted by [is_valid_project_name]. *)
Theorem valid_name_accepted (name : str) :
  name <> [] ->
  Forall (fun c => allowed_char c = true) name ->
  is_valid_project_name name = true.
Proof.
  intros Hne Hall. apply is_valid_spec. exists name. auto.
Qed.

Lemma valid_name_accepted_witness :
  lit "my-app" <> [] /\ is_valid_project_name (lit "my-app") = true.
Proof.
  split; [discriminate|].
  apply (valid_name_accepted (lit "my-app")); [discriminate|].
  repeat constructor.
Defined.

(** C2 (where the code departs from it): a line feed is not an allowed
    character, and a string that ends in one is accepted all the same,
    because [$] also matches just before a final line feed. *)
Theorem trailing_newline_accepted :
  allowed_char LF = false
  /\ is_valid_project_name (lit "abc" ++ [LF]) = true.
Proof. split; reflexivity. Qed.

(** Apart from a final line feed the validator does what C2 asks: the
    empty string is rejected, and so is every string with a character
    outside the set at any place but a line feed at the very end. *)
Lemma invalid_name_rejected (name : str) :
  name = [] \/
    (exists c pre post, name = pre ++ c :: post /\ allowed_char c = false
                        /\ (c <> LF \/ post <> [])) ->
  is_valid_project_name name = false.
Proof.
  intros H. apply not_true_is_false. rewrite is_valid_spec.
  intros (body & Hne & Hall & Hs).
  destruct H as [->|(c & pre & post & -> & Hc & Hpos)].
  { destruct Hs as [Hs|Hs]; [congruence|]. destruct body; discriminate. }
  rewrite Forall_forall in Hall.
  assert (Hin : forall a b : str, c ∈ a ++ c :: b).
  { intros a b. apply elem_of_app. right. by left. }
  destruct Hs as [Hs|Hs].
  - specialize (Hin pre post). rewrite Hs in Hin. apply Hall in Hin. congruence.
  - destruct (decide (post = [])) as [->|Hpost].
    + destruct Hpos as [Hpos|Hpos]; [|done].
      assert (pre ++ [c] = body ++ [LF]) as Heq by done.
      apply app_inj_tail in Heq as [_ ?]. done.
    + destruct (exists_last Hpost) as (post' & z & ->).
      rewrite app_comm_cons, app_assoc in Hs.
      apply app_inj_tail in Hs as [Hs _].
      specialize (Hin pre post'). rewrite Hs in Hin. apply Hall in Hin.
      congruence.
Qed.

(** An accepted name has no path separator: [Path(name)] is one component. *)
Lemma valid_name_no_separator (name : str) :
  is_valid_project_name name = true -> 47%N ∉ name.
Proof.
  rewrite is_valid_spec. intros (body & _ & Hall & Hs) Hin.
  rewrite Forall_forall in Hall.
  assert (47%N ∈ body) as Hb.
  { destruct Hs as [->| ->]; [done|].
    apply elem_of_app in Hin as [?|Hin]; [done|].
    apply list_elem_of_singleton in Hin. discriminate. }
  apply Hall in Hb. discriminate.
Qed.

(** ** The wrappers of the script, as equations *)

Lemma os_errors_are_caught (e : errno) :
  isinstance (os_error e) [PermissionError; OSError] = true.
Proof. destruct e; reflexivity. Qed.

Lemma create_directory_eq (p : Path) (w : World) :
  create_directory p w =
  match mkdir_parents (env w) true p (fs w) with
  | inr f' => (Ret true, add_log (created_directory p) (set_fs f' w))
  | inl e => (Ret false, add_log (directory_error p e) w)
  end.
Proof.
  unfold create_directory, try_except, bind, Path_mkdir.
  destruct (mkdir_parents _ _ _ _) as [e|f']; [|reflexivity].
  by rewrite os_errors_are_caught.
Qed.

Lemma create_file_eq (p : Path) (c : str) (w : World) :
  create_file p c w =
  match os_write (env w) p c (fs w) with
  | inr f' => (Ret true, add_log (created_file p) (set_fs f' w))
  | inl e => (Ret false, add_log (file_error p e) w)
  end.
Proof.
  unfold create_file, try_except, bind, Path_write_text.
  destruct (os_write _ _ _ _) as [e|f']; [|reflexivity].
  by rewrite os_errors_are_caught.
Qed.

Lemma initialize_git_repo_eq (p : Path) (w : World) :
  initialize_git_repo p w =
  match exec (env w) GIT_INIT with
  | None => (Ret false, add_log (git_error (os_error ENOENT)) w)
  | Some status =>
      if (status =? 0)%Z
      then (Ret true, add_log (git_initialized p) (add_proc (GIT_INIT, p) w))
      else (Ret false, add_log (git_error (called_process_error status)) w)
  end.
Proof.
  unfold initialize_git_repo, try_except, bind, subprocess_run, GIT_INIT.
  destruct (exec _ _) as [status|]; [|reflexivity].
  destruct (status =? 0)%Z; reflexivity.
Qed.


(** ** The filesystem operations *)

Lemma os_mkdir_inr (en : Env) (p : Path) (f f' : FS) :
  os_mkdir en p f = inr f' ->
  exists name parent, p = name :: parent /\ f !! p = None
    /\ is_dir parent f = true /\ fault en p = None /\ f' = <[p := Dir]> f.
Proof.
  unfold os_mkdir. destruct p as [|name parent]; [discriminate|].
  destruct (f !! (name :: parent)) eqn:Hp; [discriminate|].
  destruct (is_dir parent f) eqn:Hd; [|discriminate].
  destruct (fault en (name :: parent)) eqn:Hf; [discriminate|].
  intros [= <-]. by exists name, parent.
Qed.

Lemma grows_refl (f : FS) : grows f f.
Proof. intros q. by left. Qed.

Lemma grows_trans (f1 f2 f3 : FS) : grows f1 f2 -> grows f2 f3 -> grows f1 f3.
Proof.
  intros H12 H23 q.
  destruct (H12 q) as [E12|[N1 D2]], (H23 q) as [E23|[N2 D3]].
  - left. congruence.
  - right. split; congruence.
  - right. split; congruence.
  - congruence.
Qed.

Lemma grows_insert (f : FS) (p : Path) :
  f !! p = None -> grows f (<[p := Dir]> f).
Proof.
  intros Hp q. destruct (decide (p = q)) as [<-|Hne].
  - right. by rewrite lookup_insert_eq.
  - left. by rewrite lookup_insert_ne.
Qed.

Lemma is_dir_grows (f f' : FS) (p : Path) :
  grows f f' -> is_dir p f = true -> is_dir p f' = true.
Proof.
  intros Hg. destruct p as [|name parent]; [done|]. simpl.
  destruct (Hg (name :: parent)) as [->|[-> ->]]; done.
Qed.

Lemma well_formed_grows_insert (f : FS) (name : str) (parent : Path) (n : node) :
  well_formed f -> is_dir parent f = true ->
  (forall q, is_dir q f = true -> is_dir q (<[name :: parent := n]> f) = true) ->
  well_formed (<[name :: parent := n]> f).
Proof.
  intros Hwf Hd Hkeep name' parent' Hsome.
  destruct (decide (name :: parent = name' :: parent')) as [[= <- <-]|Hne].
  - by apply Hkeep.
  - rewrite lookup_insert_ne in Hsome by done. by apply Hkeep, Hwf with name'.
Qed.

Lemma os_mkdir_grows (en : Env) (p : Path) (f f' : FS) :
  os_mkdir en p f = inr f' -> grows f f'.
Proof.
  intros (name & parent & -> & Hp & _ & _ & ->)%os_mkdir_inr.
  by apply grows_insert.
Qed.

Lemma mkdir_single_grows (en : Env) (ok : bool) (p : Path) (f f' : FS) :
  mkdir_single en ok p f = inr f' -> grows f f'.
Proof.
  unfold mkdir_single. destruct (os_mkdir en p f) as [e|f1] eqn:Hos.
  - destruct (is_ENOENT e); [discriminate|].
    destruct (ok && is_dir p f); [|discriminate].
    intros [= <-]. apply grows_refl.
  - intros [= <-]. by apply os_mkdir_grows in Hos.
Qed.

Lemma mkdir_parents_grows (en : Env) (ok : bool) (p : Path) (f f' : FS) :
  mkdir_parents en ok p f = inr f' -> grows f f'.
Proof.
  revert ok f f'. induction p as [|name parent IH]; intros ok f f'.
  - simpl. destruct ok; [|discriminate]. intros [= <-]. apply grows_refl.
  - cbn [mkdir_parents].
    destruct (os_mkdir en (name :: parent) f) as [e|f1] eqn:Hos.
    + destruct (is_ENOENT e).
      * destruct (mkdir_parents en true parent f) as [e'|f1] eqn:Hpar;
          [discriminate|].
        intros Hs%mkdir_single_grows. apply IH in Hpar.
        by apply grows_trans with f1.
      * destruct (ok && is_dir (name :: parent) f); [|discriminate].
        intros [= <-]. apply grows_refl.
    + intros [= <-]. by apply os_mkdir_grows in Hos.
Qed.

Lemma mkdir_single_is_dir (en : Env) (p : Path) (f f' : FS) :
  mkdir_single en true p f = inr f' -> is_dir p f' = true.
Proof.
  unfold mkdir_single. destruct (os_mkdir en p f) as [e|f1] eqn:Hos.
  - destruct (is_ENOENT e); [discriminate|]. simpl.
    destruct (is_dir p f) eqn:Hd; [|discriminate]. by intros [= <-].
  - intros [= <-].
    apply os_mkdir_inr in Hos as (name & parent & -> & _ & _ & _ & ->).
    simpl. by rewrite lookup_insert_eq.
Qed.

Lemma mkdir_parents_is_dir (en : Env) (p : Path) (f f' : FS) :
  mkdir_parents en true p f = inr f' -> is_dir p f' = true.
Proof.
  destruct p as [|name parent]; [done|]. cbn [mkdir_parents].
  destruct (os_mkdir en (name :: parent) f) as [e|f1] eqn:Hos.
  - destruct (is_ENOENT e).
    + destruct (mkdir_parents en true parent f); [discriminate|].
      apply mkdir_single_is_dir.
    + cbn [andb]. destruct (is_dir (name :: parent) f) eqn:Hd; [|discriminate].
      by intros [= <-].
  - intros [= <-].
    apply os_mkdir_inr in Hos as (? & ? & [= <- <-] & _ & _ & _ & ->).
    simpl. by rewrite lookup_insert_eq.
Qed.

(** A directory that is there: nothing to do, whatever the operating
    system would refuse. *)
Lemma mkdir_parents_existing (en : Env) (p : Path) (f : FS) :
  is_dir p f = true -> mkdir_parents en true p f = inr f.
Proof.
  destruct p as [|name parent]; [done|]. intros Hd.
  cbn [mkdir_parents os_mkdir]. simpl in Hd.
  destruct (f !! (name :: parent)) as [[|c]|] eqn:Hp; try discriminate.
  simpl. by rewrite Hp.
Qed.

(** A new directory in a directory that is there. *)
Lemma mkdir_parents_new (en : Env) (name : str) (parent : Path) (f : FS) :
  f !! (name :: parent) = None -> is_dir parent f = true ->
  fault en (name :: parent) = None ->
  mkdir_parents en true (name :: parent) f = inr (<[name :: parent := Dir]> f).
Proof.
  intros Hp Hd Hf. cbn [mkdir_parents os_mkdir]. by rewrite Hp, Hd, Hf.
Qed.

Lemma os_mkdir_well_formed (en : Env) (p : Path) (f f' : FS) :
  well_formed f -> os_mkdir en p f = inr f' -> well_formed f'.
Proof.
  intros Hwf Hos. pose proof (os_mkdir_grows _ _ _ _ Hos) as Hg.
  apply os_mkdir_inr in Hos as (name & parent & -> & _ & Hd & _ & ->).
  apply well_formed_grows_insert; [done..|]. intros q. by apply is_dir_grows.
Qed.

Lemma mkdir_single_well_formed (en : Env) (ok : bool) (p : Path) (f f' : FS) :
  well_formed f -> mkdir_single en ok p f = inr f' -> well_formed f'.
Proof.
  intros Hwf. unfold mkdir_single.
  destruct (os_mkdir en p f) as [e|f1] eqn:Hos.
  - destruct (is_ENOENT e); [discriminate|].
    destruct (ok && is_dir p f); [|discriminate]. by intros [= <-].
  - intros [= <-]. by apply os_mkdir_well_formed in Hos.
Qed.

Lemma mkdir_parents_well_formed (en : Env) (ok : bool) (p : Path) (f f' : FS) :
  well_formed f -> mkdir_parents en ok p f = inr f' -> well_formed f'.
Proof.
  revert ok f f'. induction p as [|name parent IH]; intros ok f f' Hwf.
  - simpl. destruct ok; [|discriminate]. by intros [= <-].
  - cbn [mkdir_parents].
    destruct (os_mkdir en (name :: parent) f) as [e|f1] eqn:Hos.
    + destruct (is_ENOENT e).
      * destruct (mkdir_parents en true parent f) as [e'|f1] eqn:Hpar;
          [discriminate|].
        apply mkdir_single_well_formed. by apply IH in Hpar.
      * destruct (ok && is_dir (name :: parent) f); [|discriminate].
        by intros [= <-].
    + intros [= <-]. by apply os_mkdir_well_formed in Hos.
Qed.

Lemma suffix_of_cons (q : Path) (name : str) (parent : Path) :
  q `suffix_of` name :: parent -> q = name :: parent \/ q `suffix_of` parent.
Proof.
  intros [[|x k] Hk]; simpl in Hk.
  - by left.
  - right. injection Hk as _ ->. by exists k.
Qed.

(** In a well-formed filesystem a directory has all its ancestors. *)
Lemma ancestors_are_dirs (f : FS) (p q : Path) :
  well_formed f -> is_dir p f = true -> q `suffix_of` p -> is_dir q f = true.
Proof.
  intros Hwf. induction p as [|name parent IH]; intros Hd Hsuf.
  - apply suffix_nil_inv in Hsuf as ->. done.
  - apply suffix_of_cons in Hsuf as [->|Hsuf]; [done|].
    apply IH; [|done]. apply Hwf with name. simpl in Hd.
    destruct (f !! (name :: parent)); [eauto|discriminate].
Qed.

(** With nothing in the way the directory and its missing ancestors are
    made. *)
Lemma mkdir_parents_clear_way (en : Env) (p : Path) (f : FS) :
  clear_way en f p -> exists f', mkdir_parents en true p f = inr f'.
Proof.
  revert f. induction p as [|name parent IH]; intros f Hclear.
  - by exists f.
  - destruct (Hclear (name :: parent)) as [Hf Hnofile]; [done|].
    cbn [mkdir_parents os_mkdir].
    destruct (f !! (name :: parent)) as [[|c]|] eqn:Hp.
    + exists f. simpl. by rewrite Hp.
    + by destruct (Hnofile c).
    + destruct (is_dir parent f) eqn:Hd.
      * rewrite Hf. eauto.
      * assert (parent_error parent f = ENOENT) as ->.
        { unfold parent_error.
          destruct (Hclear parent) as [_ Hnf]; [by apply suffix_cons_r|].
          destruct (f !! parent) as [[|c]|] eqn:Hpar; try done.
          by destruct (Hnf c). }
        simpl. destruct (IH f) as [f1 Hpar].
        { intros q Hq. apply Hclear. by apply suffix_cons_r. }
        rewrite Hpar. unfold mkdir_single. cbn [os_mkdir].
        pose proof (mkdir_parents_grows _ _ _ _ _ Hpar) as Hg.
        pose proof (mkdir_parents_is_dir _ _ _ _ Hpar) as Hd1.
        destruct (Hg (name :: parent)) as [E|[_ E]]; rewrite E.
        -- rewrite Hp, Hd1, Hf. eauto.
        -- simpl. rewrite E. eauto.
Qed.

Lemma os_write_inr (en : Env) (p : Path) (c : str) (f f' : FS) :
  os_write en p c f = inr f' ->
  exists name parent, p = name :: parent /\ is_dir parent f = true
    /\ f !! p <> Some Dir /\ fault en p = None /\ f' = <[p := File c]> f.
Proof.
  unfold os_write. destruct p as [|name parent]; [discriminate|].
  destruct (is_dir parent f) eqn:Hd; [|discriminate].
  destruct (f !! (name :: parent)) as [[|c']|] eqn:Hp; [discriminate|..];
    (destruct (fault en (name :: parent)) eqn:Hf; [discriminate|]);
    intros [= <-]; by exists name, parent.
Qed.

(** Writing a file keeps every directory. *)
Lemma os_write_keeps_dirs (en : Env) (p : Path) (c : str) (f f' : FS) (q : Path) :
  os_write en p c f = inr f' -> is_dir q f = true -> is_dir q f' = true.
Proof.
  intros (name & parent & -> & _ & Hnd & _ & ->)%os_write_inr.
  destruct q as [|qn qp]; [done|]. simpl.
  destruct (decide (name :: parent = qn :: qp)) as [<-|Hne].
  - destruct (f !! (name :: parent)) as [[|?]|]; done.
  - by rewrite lookup_insert_ne.
Qed.

Lemma os_write_well_formed (en : Env) (p : Path) (c : str) (f f' : FS) :
  well_formed f -> os_write en p c f = inr f' -> well_formed f'.
Proof.
  intros Hwf Hos.
  pose proof (fun q => os_write_keeps_dirs _ _ _ _ _ q Hos) as Hkeep.
  apply os_write_inr in Hos as (name & parent & -> & Hd & _ & _ & ->).
  by apply well_formed_grows_insert.
Qed.

(** ** Reasoning on computations *)

Lemma bind_inv {A B} (m : M A) (k : A -> M B) w r w' :
  bind m k w = (r, w') ->
  (exists a w1, m w = (Ret a, w1) /\ k a w1 = (r, w'))
  \/ (exists x, m w = (Raise x, w') /\ r = Raise x).
Proof.
  unfold bind. destruct (m w) as [[a|x] w1]; intros H.
  - left. eauto.
  - right. injection H as <- <-. eauto.
Qed.

Section Preserves.
Context (I : World -> Prop).

Lemma preserves_ret {A} (a : A) : preserves I (ret a).
Proof. intros w r w' HI [= <- <-]. done. Qed.

Lemma preserves_bind_strong {A B} (m : M A) (k : A -> M B) :
  preserves I m ->
  (forall a, possible m a -> preserves I (k a)) ->
  preserves I (bind m k).
Proof.
  intros Hm Hk w r w' HI Hb.
  apply bind_inv in Hb as [(a & w1 & Hma & Hka)|(x & Hmx & _)].
  - eapply Hk; [by exists w, w1| |done]. by eapply Hm.
  - by eapply Hm.
Qed.

Lemma preserves_bind {A B} (m : M A) (k : A -> M B) :
  preserves I m -> (forall a, preserves I (k a)) -> preserves I (bind m k).
Proof. intros Hm Hk. apply preserves_bind_strong; auto. Qed.

Lemma preserves_when (b : bool) (m : M unit) :
  (b = true -> preserves I m) -> preserves I (when b m).
Proof. destruct b; simpl; [auto|]. intros _. apply preserves_ret. Qed.

Lemma preserves_for_each {A} (l : list A) (body : A -> M unit) :
  (forall x, x ∈ l -> preserves I (body x)) -> preserves I (for_each l body).
Proof.
  induction l as [|x l IH]; intros Hbody; simpl.
  - apply preserves_ret.
  - apply preserves_bind; [apply Hbody; by left|].
    intros _. apply IH. intros y Hy. apply Hbody. by right.
Qed.

Lemma preserves_try_except {A} (body : M A) classes (handler : exn -> M A) :
  preserves I body -> (forall x, preserves I (handler x)) ->
  preserves I (try_except body classes handler).
Proof.
  intros Hb Hh w r w' HI. unfold try_except.
  destruct (body w) as [[a|x] w1] eqn:Hbw.
  - intros [= <- <-]. by eapply Hb.
  - destruct (isinstance x classes).
    + intros Hhw. eapply Hh; [|done]. by eapply Hb.
    + intros [= <- <-]. by eapply Hb.
Qed.

Lemma preserves_logging lv m a :
  (forall w, I w -> I (add_log {| levelname := lv; msg := m; args := a |} w)) ->
  preserves I (logging lv m a).
Proof. intros H w r w' HI [= <- <-]. auto. Qed.
End Preserves.

(** The computations of the script that never raise. *)
Lemma create_directory_returns (p : Path) : returns (create_directory p).
Proof.
  intros w. rewrite create_directory_eq.
  destruct (mkdir_parents _ _ _ _); eauto.
Qed.

Lemma create_file_returns (p : Path) (c : str) : returns (create_file p c).
Proof.
  intros w. rewrite create_file_eq. destruct (os_write _ _ _ _); eauto.
Qed.

Lemma initialize_git_repo_returns (p : Path) : returns (initialize_git_repo p).
Proof.
  intros w. rewrite initialize_git_repo_eq.
  destruct (exec _ _) as [status|]; [destruct (status =? 0)%Z|]; eauto.
Qed.

Lemma bind_returns {A B} (m : M A) (k : A -> M B) :
  returns m -> (forall a, returns (k a)) -> returns (bind m k).
Proof.
  intros Hm Hk w. unfold bind. destruct (Hm w) as (a & w1 & ->). apply Hk.
Qed.

Lemma logging_returns lv m a : returns (logging lv m a).
Proof. intros w. by eexists _, _. Qed.

Lemma ret_returns {A} (a : A) : returns (ret a).
Proof. intros w. by eexists _, _. Qed.

Lemma when_returns (b : bool) (m : M unit) : returns m -> returns (when b m).
Proof. destruct b; [done|]. intros _. apply ret_returns. Qed.

Lemma for_each_returns {A} (l : list A) (body : A -> M unit) :
  (forall x, returns (body x)) -> returns (for_each l body).
Proof.
  intros Hb. induction l as [|x l IH]; simpl; [apply ret_returns|].
  apply bind_returns; auto.
Qed.

(** The four build descriptors: the return values of [create_file] are
    dropped and nothing raises, so the answer is always [True]. *)
Lemma create_cmake_files_true (path : Path) (project_name : str) (w : World) :
  exists w', create_cmake_files path project_name w = (Ret true, w').
Proof.
  unfold create_cmake_files, try_except, bind.
  destruct (create_file_returns (path // lit "CMakeLists.txt")
              (root_cmake_content project_name) w) as (b1 & w1 & ->).
  destruct (create_file_returns (path // lit "src" // lit "CMakeLists.txt")
              src_cmake_content w1) as (b2 & w2 & ->).
  destruct (create_file_returns (path // lit "tests" // lit "CMakeLists.txt")
              tests_cmake_content w2) as (b3 & w3 & ->).
  destruct (create_file_returns (path // lit "docs" // lit "CMakeLists.txt")
              docs_cmake_content w3) as (b4 & w4 & ->).
  simpl. eauto.
Qed.

Lemma create_cmake_files_possible (path : Path) (project_name : str) (b : bool) :
  possible (create_cmake_files path project_name) b -> b = true.
Proof.
  intros (w & w' & H).
  destruct (create_cmake_files_true path project_name w) as (w1 & H1).
  congruence.
Qed.

(** ** The generated files hold the content of the templates *)

Ltac in_list :=
  repeat first [apply list_elem_of_here | apply list_elem_of_further].

Lemma generated_files_functional (N : str) (p : Path) (c c' : str) :
  (p, c) ∈ generated_files N -> (p, c') ∈ generated_files N -> c = c'.
Proof.
  unfold generated_files, Path_of, joinpath.
  rewrite !elem_of_cons, !elem_of_nil. intros H1 H2.
  repeat match goal with H : _ \/ _ |- _ => destruct H end;
    try done;
    repeat match goal with H : (_, _) = (_, _) |- _ => injection H as ? ? end;
    subst; try reflexivity; discriminate.
Qed.

Lemma log_add_log (r r' : LogRecord) (w : World) :
  r ∈ log (add_log r' w) <-> r ∈ log w \/ r = r'.
Proof. simpl. by rewrite elem_of_app, list_elem_of_singleton. Qed.

Lemma files_inv_add_log (N : str) (r : LogRecord) (w : World) :
  (forall p, r <> created_file p) ->
  files_inv N w -> files_inv N (add_log r w).
Proof.
  intros Hr HI p [Hin|Heq]%log_add_log; [by apply HI|].
  by destruct (Hr p).
Qed.

Lemma files_inv_logging (N : str) lv m a :
  m <> lit "Created file: %s" -> preserves (files_inv N) (logging lv m a).
Proof.
  intros Hm. apply preserves_logging. intros w.
  apply files_inv_add_log. intros p [= _ ? _]. done.
Qed.

Lemma files_inv_grows (N : str) (w : World) (f' : FS) :
  grows (fs w) f' -> files_inv N w -> files_inv N (set_fs f' w).
Proof.
  intros Hg HI p Hin. destruct (HI p Hin) as (c & Hc & Hp).
  exists c. split; [done|]. simpl.
  destruct (Hg p) as [->|[Hn _]]; congruence.
Qed.

Lemma files_inv_create_directory (N : str) (q : Path) :
  preserves (files_inv N) (create_directory q).
Proof.
  intros w r w' HI. rewrite create_directory_eq.
  destruct (mkdir_parents _ _ _ _) as [e|f'] eqn:Hmk; intros [= <- <-].
  - apply files_inv_add_log; [|done]. intros p. discriminate.
  - apply files_inv_add_log; [intros p; discriminate|].
    apply files_inv_grows; [|done]. by apply mkdir_parents_grows in Hmk.
Qed.

Lemma files_inv_create_file (N : str) (p : Path) (c : str) :
  (p, c) ∈ generated_files N -> preserves (files_inv N) (create_file p c).
Proof.
  intros Hgen w r w' HI. rewrite create_file_eq.
  destruct (os_write _ _ _ _) as [e|f'] eqn:Hwr; intros [= <- <-].
  - apply files_inv_add_log; [|done]. intros q. discriminate.
  - apply os_write_inr in Hwr as (name & parent & -> & _ & _ & _ & ->).
    intros q [Hin|Heq]%log_add_log; simpl.
    + destruct (decide (name :: parent = q)) as [<-|Hne].
      * exists c. by rewrite lookup_insert_eq.
      * rewrite lookup_insert_ne by done. by apply HI.
    + injection Heq as ->. exists c. by rewrite lookup_insert_eq.
Qed.

Lemma files_inv_initialize_git_repo (N : str) (p : Path) :
  preserves (files_inv N) (initialize_git_repo p).
Proof.
  intros w r w' HI. rewrite initialize_git_repo_eq.
  destruct (exec _ _) as [status|]; [destruct (status =? 0)%Z|];
    intros [= <- <-]; (apply files_inv_add_log; [intros q; discriminate|done]).
Qed.

(** Walks through a computation of the script; [leaf] settles the calls
    of the wrappers and of [logging]. *)
Ltac walk leaf :=
  repeat first
    [ leaf
    | apply preserves_ret
    | apply preserves_bind; [|intros ?]
    | apply preserves_when; intros _
    | apply preserves_for_each; intros ? _
    | apply preserves_try_except; [|intros ?] ].

Ltac files_leaf :=
  first
    [ apply files_inv_create_directory
    | apply files_inv_initialize_git_repo
    | apply files_inv_create_file; unfold generated_files; in_list
    | apply files_inv_logging; discriminate ].

Lemma files_inv_create_cmake_files (N : str) :
  preserves (files_inv N) (create_cmake_files (Path_of N) N).
Proof. unfold create_cmake_files. walk files_leaf. Qed.

Lemma files_inv_scaffold (N : str) : preserves (files_inv N) (scaffold N).
Proof.
  unfold scaffold. cbv zeta.
  apply preserves_bind; [apply files_inv_create_directory|].
  intros [|]; cbn [negb];
    unfold logging_error, logging_info, logging_warning;
    walk ltac:(first [apply files_inv_create_cmake_files | files_leaf]).
Qed.

Lemma text_cons (l : str) (ls : list str) :
  text (l :: ls) = l ++ [LF] ++ text ls.
Proof. unfold text. simpl. by rewrite <- app_assoc. Qed.

Lemma root_cmake_contains_name (N : str) : contains (root_cmake_content N) N.
Proof.
  unfold root_cmake_content. rewrite 2!text_cons.
  eexists (lit "cmake_minimum_required(VERSION 3.10)" ++ [LF] ++ lit "project("), _.
  rewrite <- !app_assoc. reflexivity.
Qed.

Lemma readme_contains_name (N : str) : contains (readme_content N) N.
Proof.
  unfold readme_content. rewrite text_cons.
  eexists (lit "# "), _. rewrite <- !app_assoc. reflexivity.
Qed.

Lemma header_guard :
  contains header_content
    (lit "#ifndef PROJECT_HEADER_H" ++ [LF] ++ lit "#define PROJECT_HEADER_H" ++ [LF]).
Proof.
  unfold header_content. rewrite 2!text_cons.
  eexists [], _. rewrite <- !app_assoc. reflexivity.
Qed.

Lemma files_inv_start (N : str) (w : World) :
  (forall q, created_file q ∉ log w) -> files_inv N w.
Proof. intros H p Hin. by destruct (H p). Qed.

(** A file the run reports as created holds the content of its
    template. *)
Lemma scaffold_file_content (N : str) (w : World) r (w' : World) (p : Path) (c : str) :
  (forall q, created_file q ∉ log w) ->
  scaffold N w = (r, w') ->
  (p, c) ∈ generated_files N ->
  created_file p ∈ log w' ->
  fs w' !! p = Some (File c).
Proof.
  intros Hstart Hrun Hgen Hin.
  destruct (files_inv_scaffold N w r w' (files_inv_start N w Hstart) Hrun p Hin)
    as (c' & Hc' & Hp).
  by rewrite (generated_files_functional N p c c').
Qed.

(** C5: for a valid project name [N] the root build descriptor and the
    readme contain [N] literally; the header has the fixed include guard
    [PROJECT_HEADER_H], and the header file a run writes is the constant
    [header_content], in which [N] does not occur. *)
Theorem project_name_in_templates (N : str) :
  is_valid_project_name N = true ->
  contains (root_cmake_content N) N
  /\ contains (readme_content N) N
  /\ contains header_content
       (lit "#ifndef PROJECT_HEADER_H" ++ [LF] ++ lit "#define PROJECT_HEADER_H" ++ [LF])
  /\ forall (w : World) r (w' : World),
       (forall q, created_file q ∉ log w) ->
       scaffold N w = (r, w') ->
       (created_file (Path_of N // lit "CMakeLists.txt") ∈ log w' ->
        fs w' !! (Path_of N // lit "CMakeLists.txt")
        = Some (File (root_cmake_content N)))
       /\ (created_file (Path_of N // lit "README.md") ∈ log w' ->
           fs w' !! (Path_of N // lit "README.md")
           = Some (File (readme_content N)))
       /\ (created_file (Path_of N // lit "include" // lit "project_header.h") ∈ log w' ->
           fs w' !! (Path_of N // lit "include" // lit "project_header.h")
           = Some (File header_content)).
Proof.
  intros _. split; [apply root_cmake_contains_name|].
  split; [apply readme_contains_name|]. split; [apply header_guard|].
  intros w r w' Hstart Hrun.
  repeat split; intros Hin;
    (eapply scaffold_file_content; [done..| |done]);
    unfold generated_files; in_list.
Qed.

Lemma project_name_in_templates_witness :
  is_valid_project_name my_app = true
  /\ contains (root_cmake_content my_app) my_app
  /\ contains (readme_content my_app) my_app
  /\ fs (scaffold my_app world_plain).2
       !! (Path_of my_app // lit "include" // lit "project_header.h")
     = Some (File header_content).
Proof.
  split; [reflexivity|].
  destruct (project_name_in_templates my_app eq_refl) as (H1 & H2 & _ & H4).
  split; [exact H1|]. split; [exact H2|].
  destruct (H4 world_plain (scaffold my_app world_plain).1
              (scaffold my_app world_plain).2) as (_ & _ & Hh).
  - intros q. apply not_elem_of_nil.
  - by destruct (scaffold my_app world_plain).
  - apply Hh. apply (bool_decide_unpack _). vm_compute. reflexivity.
Defined.

(** C7: two runs for the same project name [N], in any two worlds
    (filesystem, faults, programs installed, input left), agree on the
    content of every file both report as created, and that content is
    the one the templates give for [N]. *)
Theorem template_output_deterministic (N : str) (w1 w2 : World) r1 r2
    (w1' w2' : World) (p : Path) :
  (forall q, created_file q ∉ log w1) ->
  (forall q, created_file q ∉ log w2) ->
  scaffold N w1 = (r1, w1') ->
  scaffold N w2 = (r2, w2') ->
  created_file p ∈ log w1' ->
  created_file p ∈ log w2' ->
  exists c, (p, c) ∈ generated_files N
    /\ fs w1' !! p = Some (File c) /\ fs w2' !! p = Some (File c).
Proof.
  intros H1 H2 Hrun1 Hrun2 Hin1 Hin2.
  destruct (files_inv_scaffold N w1 r1 w1' (files_inv_start N w1 H1) Hrun1 p Hin1)
    as (c & Hc & Hp1).
  exists c. split; [done|]. split; [done|].
  by eapply scaffold_file_content.
Qed.

Lemma template_output_deterministic_witness :
  exists c,
    (Path_of my_app // lit "README.md", c) ∈ generated_files my_app
    /\ fs (scaffold my_app world_plain).2 !! (Path_of my_app // lit "README.md")
       = Some (File c)
    /\ fs (scaffold my_app world_without_git).2 !! (Path_of my_app // lit "README.md")
       = Some (File c).
Proof.
  apply (template_output_deterministic my_app world_plain world_without_git
           (scaffold my_app world_plain).1 (scaffold my_app world_without_git).1).
  - intros q. apply not_elem_of_nil.
  - intros q. apply not_elem_of_nil.
  - by destruct (scaffold my_app world_plain).
  - by destruct (scaffold my_app world_without_git).
  - apply (bool_decide_unpack _). vm_compute. reflexivity.
  - apply (bool_decide_unpack _). vm_compute. reflexivity.
Defined.

(** ** The build descriptors and the warning that never comes *)

Lemma no_cmake_warning_add_log (r : LogRecord) (w : World) :
  r <> cmake_warning -> no_cmake_warning w -> no_cmake_warning (add_log r w).
Proof. intros Hr Hw [Hin|Heq]%log_add_log; done. Qed.

Lemma no_cmake_warning_logging lv m a :
  {| levelname := lv; msg := m; args := a |} <> cmake_warning ->
  preserves no_cmake_warning (logging lv m a).
Proof.
  intros Hr. apply preserves_logging. intros w.
  by apply no_cmake_warning_add_log.
Qed.

Lemma no_cmake_warning_create_directory (q : Path) :
  preserves no_cmake_warning (create_directory q).
Proof.
  intros w r w' HI. rewrite create_directory_eq.
  destruct (mkdir_parents _ _ _ _); intros [= <- <-];
    by apply no_cmake_warning_add_log.
Qed.

Lemma no_cmake_warning_create_file (p : Path) (c : str) :
  preserves no_cmake_warning (create_file p c).
Proof.
  intros w r w' HI. rewrite create_file_eq.
  destruct (os_write _ _ _ _); intros [= <- <-];
    by apply no_cmake_warning_add_log.
Qed.

Lemma no_cmake_warning_initialize_git_repo (p : Path) :
  preserves no_cmake_warning (initialize_git_repo p).
Proof.
  intros w r w' HI. rewrite initialize_git_repo_eq.
  destruct (exec _ _) as [status|]; [destruct (status =? 0)%Z|];
    intros [= <- <-]; by apply no_cmake_warning_add_log.
Qed.

Ltac warning_leaf :=
  idtac;
  match goal with
  | |- preserves _ (create_directory _) => apply no_cmake_warning_create_directory
  | |- preserves _ (create_file _ _) => apply no_cmake_warning_create_file
  | |- preserves _ (initialize_git_repo _) =>
      apply no_cmake_warning_initialize_git_repo
  | |- preserves _ (logging _ _ _) =>
      apply no_cmake_warning_logging; discriminate
  | |- preserves _ (bind (create_cmake_files _ _) _) =>
      apply preserves_bind_strong;
      [|intros ? ->%create_cmake_files_possible; cbn [negb]]
  | |- preserves _ (when false _) => apply preserves_when; discriminate
  end.

Lemma no_cmake_warning_create_cmake_files (path : Path) (project_name : str) :
  preserves no_cmake_warning (create_cmake_files path project_name).
Proof.
  unfold create_cmake_files, logging_info, logging_error. walk warning_leaf.
Qed.

Lemma no_cmake_warning_scaffold (N : str) :
  preserves no_cmake_warning (scaffold N).
Proof.
  unfold scaffold. cbv zeta.
  apply preserves_bind; [apply no_cmake_warning_create_directory|].
  intros [|]; cbn [negb];
    unfold logging_error, logging_info, logging_warning;
    walk ltac:(first [apply no_cmake_warning_create_cmake_files | warning_leaf]).
Qed.

(** C8: [create_cmake_files] answers [True] in every world, whichever of
    its four writes fail, and a run never logs the warning "Failed to
    create CMakeLists.txt files". *)
Theorem create_cmake_files_always_true (path : Path) (project_name : str)
    (w : World) :
  (exists w', create_cmake_files path project_name w = (Ret true, w'))
  /\ forall r (w' : World),
       cmake_warning ∉ log w ->
       scaffold project_name w = (r, w') ->
       cmake_warning ∉ log w'.
Proof.
  split; [apply create_cmake_files_true|].
  intros r w' Hstart Hrun. by apply (no_cmake_warning_scaffold project_name w r w').
Qed.

Lemma create_cmake_files_always_true_witness :
  (exists w', create_cmake_files (Path_of my_app) my_app world_read_only
              = (Ret true, w'))
  /\ cmake_warning ∉ log (scaffold my_app world_cmake_denied).2.
Proof.
  split.
  - apply (proj1 (create_cmake_files_always_true
                    (Path_of my_app) my_app world_read_only)).
  - apply (proj2 (create_cmake_files_always_true
                    (Path_of my_app) my_app world_cmake_denied)
             (scaffold my_app world_cmake_denied).1).
    + apply not_elem_of_nil.
    + by destruct (scaffold my_app world_cmake_denied).
Defined.

(** ** Failures of the platform become [False] *)

Lemma git_errors_are_caught (w w1 : World) (p : Path) (x : exn) :
  subprocess_run GIT_INIT p true w = (Raise x, w1) ->
  isinstance x [CalledProcessError; FileNotFoundError] = true /\ w1 = w.
Proof.
  unfold subprocess_run. destruct (exec _ _) as [status|].
  - destruct (status =? 0)%Z; [discriminate|]. by intros [= <- <-].
  - by intros [= <- <-].
Qed.



(** ** Directories: made once, found again *)

Lemma create_directory_existing (p : Path) (w : World) :
  is_dir p (fs w) = true ->
  create_directory p w = (Ret true, add_log (created_directory p) w).
Proof.
  intros Hd. rewrite create_directory_eq, mkdir_parents_existing by done.
  by destruct w.
Qed.

Lemma create_directory_true (p : Path) (w w1 : World) :
  create_directory p w = (Ret true, w1) ->
  exists f', mkdir_parents (env w) true p (fs w) = inr f'
             /\ w1 = add_log (created_directory p) (set_fs f' w).
Proof.
  rewrite create_directory_eq.
  destruct (mkdir_parents _ _ _ _) as [e|f']; [discriminate|].
  intros [= <-]. eauto.
Qed.

Lemma dirs_inv_add_log (r : LogRecord) (w : World) :
  (forall p, r <> created_directory p) -> dirs_inv w -> dirs_inv (add_log r w).
Proof.
  intros Hr HI p [Hin|Heq]%log_add_log; [by apply HI|]. by destruct (Hr p).
Qed.

Lemma dirs_inv_logging lv m a :
  m <> lit "Created directory: %s" -> preserves dirs_inv (logging lv m a).
Proof.
  intros Hm. apply preserves_logging. intros w.
  apply dirs_inv_add_log. intros p [= _ ? _]. done.
Qed.

Lemma dirs_inv_create_directory (q : Path) :
  preserves dirs_inv (create_directory q).
Proof.
  intros w r w' HI. rewrite create_directory_eq.
  destruct (mkdir_parents _ _ _ _) as [e|f'] eqn:Hmk; intros [= <- <-].
  - apply dirs_inv_add_log; [|done]. intros p. discriminate.
  - intros p [Hin|Heq]%log_add_log; simpl.
    + eapply is_dir_grows; [by eapply mkdir_parents_grows|]. by apply HI.
    + injection Heq as ->. by eapply mkdir_parents_is_dir.
Qed.

Lemma dirs_inv_create_file (p : Path) (c : str) :
  preserves dirs_inv (create_file p c).
Proof.
  intros w r w' HI. rewrite create_file_eq.
  destruct (os_write _ _ _ _) as [e|f'] eqn:Hwr; intros [= <- <-].
  - apply dirs_inv_add_log; [|done]. intros q. discriminate.
  - apply dirs_inv_add_log; [intros q; discriminate|].
    intros q Hin. simpl. eapply os_write_keeps_dirs; [done|]. by apply HI.
Qed.

Lemma dirs_inv_initialize_git_repo (p : Path) :
  preserves dirs_inv (initialize_git_repo p).
Proof.
  intros w r w' HI. rewrite initialize_git_repo_eq.
  destruct (exec _ _) as [status|]; [destruct (status =? 0)%Z|];
    intros [= <- <-]; (apply dirs_inv_add_log; [intros q; discriminate|done]).
Qed.

Ltac dirs_leaf :=
  first
    [ apply dirs_inv_create_directory
    | apply dirs_inv_initialize_git_repo
    | apply dirs_inv_create_file
    | apply dirs_inv_logging; discriminate ].

Lemma dirs_inv_scaffold (N : str) : preserves dirs_inv (scaffold N).
Proof.
  unfold scaffold, create_cmake_files. cbv zeta.
  apply preserves_bind; [apply dirs_inv_create_directory|].
  intros [|]; cbn [negb];
    unfold logging_error, logging_info, logging_warning; walk dirs_leaf.
Qed.

(** C6: [create_directory] on a directory that is there answers [True]
    and changes nothing, whatever the operating system would refuse; when
    it answers [True] the directory and all its ancestors are there and
    doing it again answers [True]; with nothing in the way the missing
    ancestors are made; and every directory a full run reports as created
    is made again without error afterwards. *)
Theorem create_directory_idempotent (p : Path) (w : World) :
  well_formed (fs w) ->
  (is_dir p (fs w) = true ->
   create_directory p w = (Ret true, add_log (created_directory p) w))
  /\ (forall w1 : World,
        create_directory p w = (Ret true, w1) ->
        (forall q, q `suffix_of` p -> is_dir q (fs w1) = true)
        /\ well_formed (fs w1)
        /\ create_directory p w1 = (Ret true, add_log (created_directory p) w1))
  /\ (clear_way (env w) (fs w) p ->
      exists w1 : World, create_directory p w = (Ret true, w1))
  /\ (forall (N : str) r (w' w2 : World),
        (forall q, created_directory q ∉ log w) ->
        scaffold N w = (r, w') ->
        created_directory p ∈ log w' ->
        fs w2 = fs w' ->
        create_directory p w2 = (Ret true, add_log (created_directory p) w2)).
Proof.
  intros Hwf. split; [apply create_directory_existing|]. split; [|split].
  - intros w1 (f' & Hmk & ->)%create_directory_true.
    pose proof (mkdir_parents_is_dir _ _ _ _ Hmk) as Hd.
    pose proof (mkdir_parents_well_formed _ _ _ _ _ Hwf Hmk) as Hwf'.
    split; [|split]; [|done|by apply create_directory_existing].
    intros q Hq. simpl. by eapply ancestors_are_dirs.
  - intros (f' & Hmk)%mkdir_parents_clear_way.
    rewrite create_directory_eq, Hmk. eauto.
  - intros N r w' w2 Hstart Hrun Hin Hfs.
    apply create_directory_existing. rewrite Hfs.
    apply (dirs_inv_scaffold N w r w'); [|done..].
    intros q Hq. by destruct (Hstart q).
Qed.

Lemma create_directory_idempotent_witness :
  (create_directory (Path_of my_app // lit "src") world_read_only).1 = Ret false
  /\ (exists w1 : World,
        create_directory (Path_of my_app // lit "src") world_plain = (Ret true, w1)
        /\ is_dir (Path_of my_app) (fs w1) = true
        /\ create_directory (Path_of my_app // lit "src") w1
           = (Ret true, add_log (created_directory (Path_of my_app // lit "src")) w1))
  /\ create_directory (Path_of my_app // lit "docs") (scaffold my_app world_plain).2
     = (Ret true,
        add_log (created_directory (Path_of my_app // lit "docs"))
          (scaffold my_app world_plain).2).
Proof.
  assert (Hwf : well_formed (fs world_plain)).
  { intros name parent [x Hx].
    change (fs world_plain) with (∅ : gmap (list (list N)) node) in Hx.
    by rewrite lookup_empty in Hx. }
  destruct (create_directory_idempotent (Path_of my_app // lit "src") world_plain Hwf)
    as (_ & Hagain & Hclear & _).
  destruct (create_directory_idempotent (Path_of my_app // lit "docs") world_plain Hwf)
    as (_ & _ & _ & Hrerun).
  split; [vm_compute; reflexivity|]. split.
  - destruct Hclear as [w1 Hw1].
    { intros q _. split; [reflexivity|]. intros c.
      change (fs world_plain) with (∅ : gmap (list (list N)) node).
      by rewrite lookup_empty. }
    exists w1. split; [exact Hw1|].
    destruct (Hagain w1 Hw1) as (Hanc & _ & Hre). split; [|exact Hre].
    apply Hanc. by apply suffix_cons_r.
  - apply (Hrerun my_app (scaffold my_app world_plain).1
             (scaffold my_app world_plain).2 (scaffold my_app world_plain).2).
    + intros q. apply not_elem_of_nil.
    + by destruct (scaffold my_app world_plain).
    + apply (bool_decide_unpack _). vm_compute. reflexivity.
    + exact eq_refl.
Defined.

(** ** The prompt and the exit status *)

(** The recursion on the input is the loop of the source: read a line,
    complain and go round again, or leave the loop with the name. *)
Lemma prompt_project_name_unfold :
  forall w, prompt_project_name w =
    (project_name <- input_ PROMPT ;;
     if is_empty project_name then
       logging_error (lit "Project name cannot be empty. Please try again.") [] ;;
       prompt_project_name
     else if negb (is_valid_project_name project_name) then
       logging_error (lit "Invalid project name. Please use only alphanumeric characters, underscores, and hyphens.") [] ;;
       prompt_project_name
     else ret project_name) w.
Proof.
  intros w. unfold prompt_project_name, bind, input_.
  destruct (stdin w) as [|[s|] rest]; try reflexivity.
  cbn [prompt_loop]. destruct (is_empty s); [reflexivity|].
  destruct (is_valid_project_name s); reflexivity.
Qed.

Lemma prompt_loop_raises (pending : list InputEvent) (w w' : World) (x : exn) :
  prompt_loop pending w = (Raise x, w') ->
  x = keyboard_interrupt \/ x = eof_error.
Proof.
  revert w. induction pending as [|[s|] rest IH]; intros w; cbn [prompt_loop].
  - intros [= <- _]. by right.
  - destruct (is_empty s); [apply IH|].
    destruct (is_valid_project_name s); [discriminate|apply IH].
  - intros [= <- _]. by left.
Qed.

(** The name the prompt hands over has passed the validator. *)
Lemma prompt_loop_valid (pending : list InputEvent) (w w' : World) (N : str) :
  prompt_loop pending w = (Ret N, w') -> is_valid_project_name N = true.
Proof.
  revert w. induction pending as [|[s|] rest IH]; intros w; cbn [prompt_loop];
    [discriminate| |discriminate].
  destruct (is_empty s); [apply IH|].
  destruct (is_valid_project_name s) eqn:Hs; [|apply IH].
  by intros [= <- _].
Qed.

Lemma create_cmake_files_returns (path : Path) (project_name : str) :
  returns (create_cmake_files path project_name).
Proof.
  intros w. destruct (create_cmake_files_true path project_name w) as [w' ->].
  eauto.
Qed.

Ltac returns_walk :=
  repeat first
    [ apply create_directory_returns
    | apply create_file_returns
    | apply initialize_git_repo_returns
    | apply create_cmake_files_returns
    | apply logging_returns
    | apply ret_returns
    | apply when_returns
    | apply for_each_returns; intros ?
    | apply bind_returns; [|intros ?] ].

(** Once the name is known nothing raises any more. *)
Lemma scaffold_returns (N : str) : returns (scaffold N).
Proof.
  unfold scaffold. cbv zeta.
  apply bind_returns; [apply create_directory_returns|].
  intros [|]; cbn [negb];
    unfold logging_error, logging_info, logging_warning; returns_walk.
Qed.

Lemma setup_cpp_project_eq (w : World) :
  setup_cpp_project w = bind prompt_project_name scaffold (greeted w).
Proof. reflexivity. Qed.

Lemma scaffold_aborted (N : str) (w w1 : World) :
  create_directory (Path_of N) w = (Ret false, w1) ->
  scaffold N w = (Ret tt, add_log setup_aborted w1).
Proof. intros H. unfold scaffold, bind. cbv zeta. by rewrite H. Qed.




(** ** A run in a fresh place where nothing is refused *)

Lemma total_ret {A} (P : World -> Prop) (a : A) : total P (ret a) (fun _ => P).
Proof. intros w HP. by exists a, w. Qed.

Lemma total_bind {A B} (P : World -> Prop) (Q : A -> World -> Prop)
    (R : B -> World -> Prop) (m : M A) (k : A -> M B) :
  total P m Q -> (forall a, total (Q a) (k a) R) -> total P (bind m k) R.
Proof.
  intros Hm Hk w HP. destruct (Hm w HP) as (a & w1 & Hw1 & HQ).
  unfold bind. rewrite Hw1. by apply Hk.
Qed.

Lemma total_pure {A} (X : Prop) (P : World -> Prop) (m : M A)
    (Q : A -> World -> Prop) :
  (X -> total P m Q) -> total (fun w => X /\ P w) m Q.
Proof. intros H w [HX HP]. by apply H. Qed.

Lemma total_when (P : World -> Prop) (b : bool) (m : M unit) :
  total P m (fun _ => P) -> total P (when b m) (fun _ => P).
Proof. destruct b; [done|]. intros _. apply total_ret. Qed.

Lemma total_try_except {A} (P : World -> Prop) (Q : A -> World -> Prop)
    (body : M A) classes (handler : exn -> M A) :
  total P body Q -> total P (try_except body classes handler) Q.
Proof.
  intros Hb w HP. destruct (Hb w HP) as (a & w1 & Hw1 & HQ).
  unfold try_except. rewrite Hw1. eauto.
Qed.

Lemma at_fs_logging (en : Env) (F : FS) lv m a :
  total (at_fs en F) (logging lv m a) (fun _ => at_fs en F).
Proof. intros w [? ?]. by eexists _, _. Qed.

Lemma at_fs_initialize_git_repo (en : Env) (F : FS) (p : Path) :
  total (at_fs en F) (initialize_git_repo p) (fun _ => at_fs en F).
Proof.
  intros w [? ?]. rewrite initialize_git_repo_eq.
  destruct (exec _ _) as [status|]; [destruct (status =? 0)%Z|];
    by eexists _, _.
Qed.

Lemma at_fs_create_directory (en : Env) (F : FS) (name : str) (parent : Path) :
  F !! (name :: parent) = None -> is_dir parent F = true ->
  fault en (name :: parent) = None ->
  total (at_fs en F) (create_directory (parent // name))
    (fun ok w => ok = true /\ at_fs en (<[name :: parent := Dir]> F) w).
Proof.
  intros Hp Hd Hf w [<- <-]. unfold joinpath.
  rewrite create_directory_eq, mkdir_parents_new by done. by eexists _, _.
Qed.

Lemma at_fs_create_file (en : Env) (F : FS) (name : str) (parent : Path) (c : str) :
  F !! (name :: parent) = None -> is_dir parent F = true ->
  fault en (name :: parent) = None ->
  total (at_fs en F) (create_file (parent // name) c)
    (fun ok w => ok = true /\ at_fs en (<[name :: parent := File c]> F) w).
Proof.
  intros Hp Hd Hf w [<- <-]. unfold joinpath.
  rewrite create_file_eq. unfold os_write. rewrite Hd, Hp, Hf. by eexists _, _.
Qed.

Lemma make_all_union (l : list (Path * node)) (f : FS) :
  NoDup l.*1 -> make_all l f = list_to_map l ∪ f.
Proof.
  unfold make_all. revert f. induction l as [|[p n] l IH]; intros f Hnd; simpl.
  - by rewrite (left_id_L ∅ (∪)).
  - apply NoDup_cons in Hnd as [Hp Hnd]. rewrite IH by done.
    rewrite <- insert_union_l. symmetry. apply insert_union_r.
    by apply not_elem_of_list_to_map_1.
Qed.

Lemma under_cons (N : str) (name : str) (p : Path) :
  under N p -> under N (name :: p).
Proof. intros [rel ->]. by exists (name :: rel). Qed.

Lemma under_root (N : str) : under N [N].
Proof. by exists []. Qed.

Lemma project_tree_nodup (N : str) : NoDup (project_tree N).*1.
Proof.
  cbv [project_tree project_dirs generated_files SUBDIRS map app fmap list_fmap
       fst snd Path_of joinpath].
  repeat (apply NoDup_cons; split;
          [rewrite ?not_elem_of_cons; repeat split;
           first [discriminate | apply not_elem_of_nil]|]).
  apply NoDup_nil_2.
Qed.

Lemma project_tree_under (N : str) (p : Path) (n : node) :
  (p, n) ∈ project_tree N -> under N p.
Proof.
  cbv [project_tree project_dirs generated_files SUBDIRS map app fst snd
       Path_of joinpath].
  rewrite !elem_of_cons, elem_of_nil. intros H.
  repeat match goal with H : _ \/ _ |- _ => destruct H as [H|H] end;
    try done; injection H as -> _;
    repeat first [apply under_root | apply under_cons].
Qed.

Section Nominal.
Context (N : str) (en : Env) (f : FS).
Hypothesis Hfresh : fresh N f.
Hypothesis Hnominal : nominal N en.

(** Looks a path up in the tree made so far: an entry made earlier, or
    nothing when the path is new. *)
Ltac tree_lookup :=
  repeat (rewrite lookup_insert_ne by discriminate);
  first [ by rewrite lookup_insert_eq
        | apply Hfresh; repeat first [apply under_root | apply under_cons] ].

Ltac tree_side :=
  unfold is_dir, Path_of, joinpath;
  first [ reflexivity
        | apply Hnominal; repeat first [apply under_root | apply under_cons]
        | tree_lookup ].

Ltac tree_step :=
  cbv beta;
  lazymatch goal with
  | |- total (fun w => _ /\ _) _ _ => apply total_pure; intros ->; cbn [negb when]
  | |- total _ (create_directory _) _ => apply at_fs_create_directory; tree_side
  | |- total _ (create_file _ _) _ => apply at_fs_create_file; tree_side
  | |- total _ (initialize_git_repo _) _ => apply at_fs_initialize_git_repo
  | |- total _ (logging _ _ _) _ => apply at_fs_logging
  | |- total _ (ret _) _ => apply total_ret
  | |- total _ (when _ _) _ => apply total_when
  | |- total _ (try_except _ _ _) _ => apply total_try_except
  | |- total _ (bind _ _) _ => eapply total_bind; [|intros ?]
  end.

Lemma scaffold_nominal :
  total (at_fs en f) (scaffold N)
    (fun _ => at_fs en (make_all (project_tree N) f)).
Proof using Hfresh Hnominal.
  cbv [make_all project_tree project_dirs generated_files SUBDIRS map app foldl
       fst snd].
  unfold scaffold, create_cmake_files. cbv zeta.
  unfold logging_info, logging_warning, logging_error, SUBDIRS.
  cbn [for_each]. unfold Path_of at 1.
  change [N] with ([] // N) at 1.
  repeat tree_step.
Qed.

End Nominal.

Lemma prompt_loop_frame (pending : list InputEvent) (w w' : World) r :
  prompt_loop pending w = (r, w') -> env w' = env w /\ fs w' = fs w.
Proof.
  revert w. induction pending as [|[s|] rest IH]; intros w; cbn [prompt_loop].
  - by intros [= _ <-].
  - destruct (is_empty s); [by intros [? ?]%IH|].
    destruct (is_valid_project_name s); [by intros [= _ <-]|by intros [? ?]%IH].
  - by intros [= _ <-].
Qed.

Lemma main_cpp_prints_hello :
  contains main_cpp_content
    (lit "std::cout << " ++ dq ++ lit "Hello, World!" ++ dq ++ lit " << std::endl;").
Proof.
  unfold main_cpp_content. rewrite 4!text_cons.
  eexists (lit "#include <iostream>" ++ [LF] ++ [] ++ [LF] ++ lit "int main() {"
           ++ [LF] ++ lit "    "), _.
  rewrite <- !app_assoc. reflexivity.
Qed.

Lemma project_tree_subdirs (N : str) (name : str) :
  (Path_of N // name, Dir) ∈ project_tree N <-> name ∈ SUBDIRS.
Proof.
  cbv [project_tree project_dirs generated_files SUBDIRS map app fst snd
       Path_of joinpath].
  rewrite !elem_of_cons, !elem_of_nil. split; intros H;
    repeat match goal with H : _ \/ _ |- _ => destruct H as [H|H] end;
    try done; try discriminate.
  all: try (injection H as ->); subst; tauto.
Qed.

Lemma project_tree_top_files (N : str) (name c : str) :
  (Path_of N // name, File c) ∈ project_tree N <->
  (name, c) ∈ [ (lit ".gitignore", GITIGNORE_CONTENT);
                (lit "README.md", readme_content N);
                (lit "CMakeLists.txt", root_cmake_content N) ].
Proof.
  cbv [project_tree project_dirs generated_files SUBDIRS map app fst snd
       Path_of joinpath].
  rewrite !elem_of_cons, !elem_of_nil. split; intros H;
    repeat match goal with H : _ \/ _ |- _ => destruct H as [H|H] end;
    try done; try discriminate.
  all: try (injection H as -> ->); subst; tauto.
Qed.



(** ** Failed build descriptors are not warned about *)

(** C4 (where the code departs from it): in a world that refuses every
    [CMakeLists.txt] the run completes with status 0, the four failures
    are logged as errors by [create_file], the log then says "Created
    CMakeLists.txt files." and holds no warning at all. *)
Theorem cmake_failure_not_warned :
  (main world_cmake_denied).1 = 0%Z
  /\ file_error (Path_of my_app // lit "CMakeLists.txt") EACCES
       ∈ log (main world_cmake_denied).2
  /\ file_error (Path_of my_app // lit "src" // lit "CMakeLists.txt") EACCES
       ∈ log (main world_cmake_denied).2
  /\ fs (main world_cmake_denied).2 !! (Path_of my_app // lit "CMakeLists.txt") = None
  /\ {| levelname := INFO; msg := lit "Created CMakeLists.txt files."; args := [] |}
       ∈ log (main world_cmake_denied).2
  /\ filter (fun r => levelname r = WARNING) (log (main world_cmake_denied).2) = []
  /\ setup_complete ∈ log (main world_cmake_denied).2.
Proof.
  repeat split;
    first [ by vm_compute
          | apply (bool_decide_unpack _); vm_compute; reflexivity ].
Qed.

(** ** After the root directory the run goes on to the report *)

Lemma returns_total {A} (m : M A) :
  returns m -> total (fun _ => True) m (fun _ _ => True).
Proof. intros H w _. destruct (H w) as (a & w' & ->). eauto. Qed.

Lemma logging_establishes lv m a (P : World -> Prop) :
  total P (logging lv m a)
    (fun _ w => {| levelname := lv; msg := m; args := a |} ∈ log w).
Proof.
  intros w _. eexists _, _. split; [reflexivity|].
  apply log_add_log. by right.
Qed.

Lemma logging_keeps (r : LogRecord) lv m a :
  total (fun w => r ∈ log w) (logging lv m a) (fun _ w => r ∈ log w).
Proof.
  intros w H. eexists _, _. split; [reflexivity|]. apply log_add_log. by left.
Qed.

Ltac report_step :=
  cbv beta;
  lazymatch goal with
  | |- total _ (bind (logging INFO (LF :: lit "Project setup complete!") []) _) _ =>
      eapply total_bind; [apply logging_establishes|intros ?]
  | |- total _ (bind _ _) _ => eapply total_bind; [|intros ?]
  | |- total (fun _ => True) _ _ => apply returns_total; returns_walk
  | |- total _ (logging _ _ _) _ => apply logging_keeps
  | |- total _ (ret _) _ => apply total_ret
  end.

(** The root directory made, nothing stops the run before the report. *)
Lemma scaffold_reaches_report (N : str) (w w1 : World) :
  create_directory (Path_of N) w = (Ret true, w1) ->
  exists w' : World, scaffold N w = (Ret tt, w') /\ setup_complete ∈ log w'.
Proof.
  intros Hroot.
  assert (Hrest : forall k : bool -> M unit,
            total (fun _ => True) (k true) (fun _ w => setup_complete ∈ log w) ->
            exists w', bind (create_directory (Path_of N)) k w = (Ret tt, w')
                       /\ setup_complete ∈ log w').
  { intros k Hk. unfold bind. rewrite Hroot.
    destruct (Hk w1 I) as ([] & w' & Hw' & Hin). eauto. }
  apply Hrest. cbn [negb].
  unfold logging_info, logging_warning, logging_error, SUBDIRS.
  cbn [for_each].
  repeat report_step.
Qed.

(** The scenario of the specification: one subdirectory is refused, git
    is missing; both are warned about, the other directories and all the
    files are made, and the run completes. *)
Example subdirectory_failure_scenario :
  (main world_lib_denied).1 = 0%Z
  /\ filter (fun r => levelname r = WARNING) (log (main world_lib_denied).2)
     = [subdir_warning (lit "lib"); git_warning]
  /\ setup_complete ∈ log (main world_lib_denied).2
  /\ fs (main world_lib_denied).2 !! (Path_of my_app // lit "lib") = None
  /\ size (fs (main world_lib_denied).2) = 15.
Proof.
  repeat split;
    first [ by vm_compute
          | apply (bool_decide_unpack _); vm_compute; reflexivity ].
Qed.

(** * Further properties of the script *)

(** ** The validator, and the names it lets through *)

(** X1: the validator accepts exactly the non-empty strings of characters
    in A-Z, a-z, 0-9, underscore and hyphen, and those strings followed by
    one line feed. *)
Theorem valid_name_characterisation (s : str) :
  is_valid_project_name s = true <->
  exists body, body <> [] /\ Forall (fun c => allowed_char c = true) body
               /\ (s = body \/ s = body ++ [LF]).
Proof. apply is_valid_spec. Qed.

(** X2: an accepted name is not empty and holds no slash, backslash, dot,
    space or NUL: as a path it is one component, and neither [.] nor
    [..]. *)
Theorem valid_name_single_component (name : str) :
  is_valid_project_name name = true ->
  name <> []
  /\ (47%N ∉ name) /\ (92%N ∉ name) /\ (46%N ∉ name) /\ (32%N ∉ name)
  /\ (0%N ∉ name).
Proof.
  intros (body & Hne & Hall & Hs)%is_valid_spec.
  rewrite Forall_forall in Hall.
  assert (Hout : forall c, allowed_char c = false -> c <> LF -> c ∉ name).
  { intros c Hc Hlf Hin.
    assert (c ∈ body) as Hb.
    { destruct Hs as [->| ->]; [done|].
      apply elem_of_app in Hin as [?|Hin]; [done|].
      by apply list_elem_of_singleton in Hin. }
    apply Hall in Hb. congruence. }
  split; [destruct Hs as [->| ->]; [done|by destruct body]|].
  repeat split; by apply Hout.
Qed.

Lemma valid_name_single_component_witness :
  my_app <> [] /\ (47%N ∉ my_app) /\ (92%N ∉ my_app) /\ (46%N ∉ my_app)
  /\ (32%N ∉ my_app) /\ (0%N ∉ my_app).
Proof. apply (valid_name_single_component my_app). reflexivity. Defined.

(** ** The prompt *)

Lemma prompt_loop_skips (skipped : list str) (pending : list InputEvent)
    (w : World) :
  stdin w = map Line skipped ++ pending ->
  Forall (fun s => is_valid_project_name s = false) skipped ->
  prompt_loop (map Line skipped ++ pending) w
  = prompt_loop pending
      (after_prompt pending (map prompt_error skipped) w).
Proof.
  intros Hin Hall. revert w Hin.
  induction Hall as [|s skipped Hs _ IH]; intros w Hin.
  - simpl in *. unfold after_prompt. rewrite app_nil_r, <- Hin. by destruct w.
  - cbn [map app prompt_loop]. unfold prompt_error at 1.
    assert (Hstep : forall r : LogRecord,
              prompt_loop (map Line skipped ++ pending)
                (add_log r (set_stdin (map Line skipped ++ pending) w))
              = prompt_loop pending
                  (after_prompt pending (r :: map prompt_error skipped) w)).
    { intros r. rewrite IH by done. unfold after_prompt. simpl.
      by rewrite <- app_assoc. }
    destruct (is_empty s); [apply Hstep|]. rewrite Hs. apply Hstep.
Qed.

(** X3: the prompt hands over the first line that the validator accepts.
    Every line before it is consumed and answered by one error record,
    "cannot be empty" for an empty line and "Invalid project name" for
    the others; the input after it is left unread and nothing else in the
    world changes. *)
Theorem prompt_returns_first_valid_line (skipped : list str) (N : str)
    (rest : list InputEvent) (w : World) :
  stdin w = map Line skipped ++ Line N :: rest ->
  Forall (fun s => is_valid_project_name s = false) skipped ->
  is_valid_project_name N = true ->
  prompt_project_name w
  = (Ret N, after_prompt rest (map prompt_error skipped) w).
Proof.
  intros Hin Hskip HN. unfold prompt_project_name. rewrite Hin.
  rewrite prompt_loop_skips by done. cbn [prompt_loop].
  unfold after_prompt, set_stdin. cbn [env fs procs stdin log].
  assert (is_empty N = false) as ->.
  { destruct N; [by rewrite is_valid_nil in HN|done]. }
  by rewrite HN.
Qed.

Lemma prompt_returns_first_valid_line_witness :
  prompt_project_name world_without_git
  = (Ret my_app,
     after_prompt [] (map prompt_error [lit "bad name!"]) world_without_git).
Proof.
  apply (prompt_returns_first_valid_line [lit "bad name!"] my_app []).
  - reflexivity.
  - repeat constructor.
  - reflexivity.
Defined.

(** X4: when Ctrl-C comes before an acceptable line, the process logs the
    banner, one error per rejected line and "Setup aborted by user.", and
    exits with status 1; when the input ends instead it exits with status
    1 without that record. In both cases the filesystem is untouched and
    the record of the programs run is as it was. *)
Theorem prompt_cut_short (skipped : list str) (rest : list InputEvent)
    (w : World) :
  Forall (fun s => is_valid_project_name s = false) skipped ->
  (stdin w = map Line skipped ++ Interrupt :: rest ->
   main w
   = (1%Z, after_prompt rest
             (banner ++ map prompt_error skipped ++ [aborted_by_user]) w))
  /\ (stdin w = map Line skipped ->
      main w
      = (1%Z, after_prompt [] (banner ++ map prompt_error skipped) w)).
Proof.
  intros Hskip. unfold main. rewrite setup_cpp_project_eq.
  unfold bind, prompt_project_name, greeted. cbn [stdin add_log].
  split; intros Hin; rewrite Hin.
  - rewrite prompt_loop_skips by done. cbn [prompt_loop].
    unfold after_prompt, set_stdin, logging_error, logging, add_log, banner.
    simpl. by rewrite <- !app_assoc.
  - rewrite <- (app_nil_r (map Line skipped)).
    rewrite prompt_loop_skips by (by rewrite ?app_nil_r). cbn [prompt_loop].
    unfold after_prompt, banner. simpl. by rewrite <- !app_assoc.
Qed.

Lemma prompt_cut_short_witness :
  main world_eof = (1%Z, after_prompt [] (banner ++ []) world_eof)
  /\ main (start {| fault := no_fault; exec := without_git |} ∅
             [Line []; Interrupt; Line my_app])
     = (1%Z,
        after_prompt [Line my_app]
          (banner ++ map prompt_error [[]] ++ [aborted_by_user])
          (start {| fault := no_fault; exec := without_git |} ∅
             [Line []; Interrupt; Line my_app])).
Proof.
  split.
  - destruct (prompt_cut_short [] [] world_eof) as [_ H]; [constructor|].
    apply H. reflexivity.
  - destruct (prompt_cut_short [[]] [Line my_app]
                (start {| fault := no_fault; exec := without_git |} ∅
                   [Line []; Interrupt; Line my_app])) as [H _].
    + repeat constructor.
    + apply H. reflexivity.
Defined.

(** ** Writing files and making directories: the edges *)

(** X5: in an existing directory, where nothing is refused, [create_file]
    answers [True] and the file holds the new content whatever was at the
    path before (nothing, or a file with any content); no other entry
    changes, and one "Created file" record is logged. *)
Theorem create_file_overwrites (name : str) (parent : Path) (c : str)
    (w : World) :
  is_dir parent (fs w) = true ->
  fs w !! (name :: parent) <> Some Dir ->
  fault (env w) (name :: parent) = None ->
  exists w' : World,
    create_file (parent // name) c w = (Ret true, w')
    /\ fs w' !! (name :: parent) = Some (File c)
    /\ (forall q, q <> name :: parent -> fs w' !! q = fs w !! q)
    /\ log w' = log w ++ [created_file (name :: parent)]
    /\ procs w' = procs w.
Proof.
  intros Hd Hp Hf. unfold joinpath. rewrite create_file_eq.
  unfold os_write. rewrite Hd, Hf.
  eexists. split.
  - destruct (fs w !! (name :: parent)) as [[|c0]|]; [done|reflexivity..].
  - split; [apply lookup_insert_eq|]. split; [|done].
    intros q Hq. simpl. by rewrite lookup_insert_ne.
Qed.

Lemma create_file_overwrites_witness :
  exists w' : World,
    create_file ([] // lit "notes.txt") (lit "new")
      (start {| fault := no_fault; exec := without_git |}
         {[ [lit "notes.txt"] := File (lit "old") ]} [])
    = (Ret true, w')
    /\ fs w' !! [lit "notes.txt"] = Some (File (lit "new")).
Proof.
  destruct (create_file_overwrites (lit "notes.txt") [] (lit "new")
              (start {| fault := no_fault; exec := without_git |}
                 {[ [lit "notes.txt"] := File (lit "old") ]} []))
    as (w' & H1 & H2 & _).
  - reflexivity.
  - vm_compute. discriminate.
  - reflexivity.
  - by exists w'.
Defined.




(** X8: a file in the way makes [create_directory] answer [False], with
    [exist_ok] or not: a file at the path itself ([FileExistsError]), or a
    file where the parent should be ([NotADirectoryError]). Nothing
    changes but the log. *)
Theorem create_directory_blocked_by_file (name : str) (parent : Path)
    (c : str) (w : World) :
  (fs w !! (name :: parent) = Some (File c) ->
   create_directory (parent // name) w
   = (Ret false, add_log (directory_error (name :: parent) EEXIST) w))
  /\ (fs w !! (name :: parent) = None ->
      parent <> [] ->
      fs w !! parent = Some (File c) ->
      create_directory (parent // name) w
      = (Ret false, add_log (directory_error (name :: parent) ENOTDIR) w)).
Proof.
  unfold joinpath. split.
  - intros Hp. rewrite create_directory_eq. cbn [mkdir_parents os_mkdir].
    rewrite Hp. simpl. by rewrite Hp.
  - intros Hp Hne Hpar. rewrite create_directory_eq.
    cbn [mkdir_parents os_mkdir]. rewrite Hp.
    assert (is_dir parent (fs w) = false) as ->.
    { destruct parent; [done|]. simpl. by rewrite Hpar. }
    unfold parent_error. rewrite Hpar. simpl. by rewrite Hp.
Qed.

Lemma create_directory_blocked_by_file_witness :
  create_directory ([] // my_app)
    (start {| fault := no_fault; exec := without_git |}
       {[ [my_app] := File [] ]} [])
  = (Ret false,
     add_log (directory_error [my_app] EEXIST)
       (start {| fault := no_fault; exec := without_git |}
          {[ [my_app] := File [] ]} [])).
Proof.
  apply (proj1 (create_directory_blocked_by_file my_app [] []
                  (start {| fault := no_fault; exec := without_git |}
                     {[ [my_app] := File [] ]} []))).
  reflexivity.
Defined.

Lemma os_mkdir_touches (en : Env) (p : Path) (f f' : FS) :
  os_mkdir en p f = inr f' ->
  forall q, f' !! q = f !! q
            \/ (f !! q = None /\ f' !! q = Some Dir /\ q = p /\ q <> []).
Proof.
  intros (name & parent & -> & Hp & _ & _ & ->)%os_mkdir_inr q.
  destruct (decide (name :: parent = q)) as [<-|Hne].
  - right. by rewrite lookup_insert_eq.
  - left. by rewrite lookup_insert_ne.
Qed.

Lemma mkdir_single_touches (en : Env) (ok : bool) (p : Path) (f f' : FS) :
  mkdir_single en ok p f = inr f' ->
  forall q, f' !! q = f !! q
            \/ (f !! q = None /\ f' !! q = Some Dir /\ q = p /\ q <> []).
Proof.
  unfold mkdir_single. destruct (os_mkdir en p f) as [e|f1] eqn:Hos.
  - destruct (is_ENOENT e); [discriminate|].
    destruct (ok && is_dir p f); [|discriminate]. intros [= <-] q. by left.
  - intros [= <-]. by apply os_mkdir_touches with en.
Qed.

(** What [mkdir_parents] makes is a directory at the path or above it,
    where nothing was. *)
Lemma mkdir_parents_touches (en : Env) (ok : bool) (p : Path) (f f' : FS) :
  mkdir_parents en ok p f = inr f' ->
  forall q, f' !! q = f !! q
            \/ (f !! q = None /\ f' !! q = Some Dir
                /\ q `suffix_of` p /\ q <> []).
Proof.
  revert ok f f'. induction p as [|name parent IH]; intros ok f f'.
  - simpl. destruct ok; [|discriminate]. intros [= <-] q. by left.
  - cbn [mkdir_parents].
    destruct (os_mkdir en (name :: parent) f) as [e|f1] eqn:Hos.
    + destruct (is_ENOENT e).
      * destruct (mkdir_parents en true parent f) as [e'|f1] eqn:Hpar;
          [discriminate|].
        intros Hs q.
        destruct (IH _ _ _ Hpar q) as [E1|(N1 & D1 & S1 & Q1)],
          (mkdir_single_touches _ _ _ _ _ Hs q) as [E2|(N2 & D2 & -> & Q2)].
        -- left. congruence.
        -- right. repeat split; [congruence|done|done|done].
        -- right. repeat split; [done|congruence|by apply suffix_cons_r|done].
        -- congruence.
      * destruct (ok && is_dir (name :: parent) f); [|discriminate].
        intros [= <-] q. by left.
    + intros [= <-] q.
      destruct (os_mkdir_touches _ _ _ _ Hos q) as [?|(? & ? & -> & ?)]; auto.
Qed.

(** X9: when [create_directory] answers [True], every entry that was
    there is unchanged, and what is new is a directory at the path or at
    one of its ancestors. *)
Theorem create_directory_only_adds (p : Path) (w w' : World) :
  create_directory p w = (Ret true, w') ->
  is_dir p (fs w') = true
  /\ forall q, fs w' !! q = fs w !! q
       \/ (fs w !! q = None /\ fs w' !! q = Some Dir
           /\ q `suffix_of` p /\ q <> []).
Proof.
  intros (f' & Hmk & ->)%create_directory_true. split.
  - by eapply mkdir_parents_is_dir.
  - by eapply mkdir_parents_touches.
Qed.

Lemma create_directory_only_adds_witness :
  is_dir (Path_of my_app // lit "src" // lit "deep")
    (fs (create_directory (Path_of my_app // lit "src" // lit "deep") world_plain).2)
  = true.
Proof.
  apply (create_directory_only_adds
           (Path_of my_app // lit "src" // lit "deep") world_plain).
  vm_compute. reflexivity.
Defined.

(** ** What a run may touch *)

Lemma project_dirs_suffix (N : str) (p q : Path) :
  p ∈ project_dirs N -> q `suffix_of` p -> q <> [] -> q ∈ project_dirs N.
Proof.
  intros Hp Hq Hne.
  assert (Hroot : forall q', q' `suffix_of` [N] -> q' <> [] -> q' = [N]).
  { intros q' Hq' ?. apply suffix_of_cons in Hq' as [->|Hq']; [done|].
    by apply suffix_nil_inv in Hq'. }
  cbv [project_dirs SUBDIRS map Path_of joinpath] in *.
  rewrite !elem_of_cons, elem_of_nil in Hp.
  repeat match goal with H : _ \/ _ |- _ => destruct H as [H|H] end;
    try done; subst p.
  all: first
    [ rewrite (Hroot q) by done; in_list
    | apply suffix_of_cons in Hq as [->|Hq];
      [in_list|rewrite (Hroot q) by done; in_list] ].
Qed.

Lemma touched_logging (N : str) (f0 : FS) lv m a :
  preserves (touched N f0) (logging lv m a).
Proof. apply preserves_logging. by intros w. Qed.

Lemma touched_create_directory (N : str) (f0 : FS) (q : Path) :
  q ∈ project_dirs N -> preserves (touched N f0) (create_directory q).
Proof.
  intros Hq w r w' HI. rewrite create_directory_eq.
  destruct (mkdir_parents _ _ _ _) as [e|f'] eqn:Hmk; intros [= <- <-];
    [done|].
  intros p. simpl.
  destruct (mkdir_parents_touches _ _ _ _ _ Hmk p) as [->|(Hn & -> & Hs & Hne)];
    [apply HI|].
  right. left. split; [|split; [done|by eapply project_dirs_suffix]].
  destruct (HI p) as [<-|[(_ & ? & _)|(c & _ & ? & _)]]; [done|congruence..].
Qed.

Lemma touched_create_file (N : str) (f0 : FS) (p : Path) (c : str) :
  (p, c) ∈ generated_files N -> preserves (touched N f0) (create_file p c).
Proof.
  intros Hgen w r w' HI. rewrite create_file_eq.
  destruct (os_write _ _ _ _) as [e|f'] eqn:Hwr; intros [= <- <-]; [done|].
  apply os_write_inr in Hwr as (name & parent & -> & _ & Hnd & _ & ->).
  intros q. simpl. destruct (decide (name :: parent = q)) as [<-|Hne].
  - right. right. exists c. rewrite lookup_insert_eq.
    split; [done|]. split; [done|].
    destruct (HI (name :: parent)) as [<-|[(_ & ? & _)|(c' & _ & _ & ?)]];
      [done|congruence|done].
  - rewrite lookup_insert_ne by done. apply HI.
Qed.

Lemma touched_initialize_git_repo (N : str) (f0 : FS) (p : Path) :
  preserves (touched N f0) (initialize_git_repo p).
Proof.
  intros w r w' HI. rewrite initialize_git_repo_eq.
  destruct (exec _ _) as [status|]; [destruct (status =? 0)%Z|];
    by intros [= <- <-].
Qed.

Ltac touched_leaf :=
  first
    [ apply touched_logging
    | apply touched_initialize_git_repo
    | apply touched_create_directory;
      cbv [project_dirs SUBDIRS map]; in_list
    | apply touched_create_file; unfold generated_files; in_list ].

Lemma touched_scaffold (N : str) (f0 : FS) :
  preserves (touched N f0) (scaffold N).
Proof.
  unfold scaffold, create_cmake_files. cbv zeta.
  unfold logging_error, logging_info, logging_warning, SUBDIRS.
  cbn [for_each].
  apply preserves_bind; [touched_leaf|].
  intros [|]; cbn [negb]; walk touched_leaf.
Qed.

Lemma touched_run (N : str) (w : World) : touched N (fs w) (scaffold N w).2.
Proof.
  destruct (scaffold N w) as [r w'] eqn:Hrun.
  apply (touched_scaffold N (fs w) w r w'); [|done]. intros p. by left.
Qed.

Lemma project_dirs_under (N : str) (p : Path) :
  p ∈ project_dirs N -> under N p.
Proof.
  intros Hp. apply project_tree_under with Dir.
  unfold project_tree. apply elem_of_app. left.
  apply list_elem_of_fmap. by exists p.
Qed.

Lemma generated_files_under (N : str) (p : Path) (c : str) :
  (p, c) ∈ generated_files N -> under N p.
Proof.
  intros Hp. apply project_tree_under with (File c).
  unfold project_tree. apply elem_of_app. right.
  apply list_elem_of_fmap. by exists (p, c).
Qed.


(** X11: a run for the name [N] writes nothing outside the directory [N],
    deletes nothing, and leaves every directory a directory. *)
Theorem run_stays_under_root (N : str) (w : World) (p : Path) :
  (~ under N p -> fs (scaffold N w).2 !! p = fs w !! p)
  /\ (is_Some (fs w !! p) -> is_Some (fs (scaffold N w).2 !! p))
  /\ (fs w !! p = Some Dir -> fs (scaffold N w).2 !! p = Some Dir).
Proof.
  destruct (touched_run N w p) as [->|[(Hn & Hd & Hin)|(c & Hin & Hf & Hnd)]].
  - done.
  - split; [|split].
    + intros Hu. destruct Hu. by apply project_dirs_under.
    + rewrite Hn. by intros [? ?].
    + congruence.
  - split; [|split].
    + intros Hu. destruct Hu. by apply generated_files_under with c.
    + rewrite Hf. eauto.
    + done.
Qed.

Lemma run_stays_under_root_witness :
  fs (scaffold my_app
        (start {| fault := deny_lib; exec := without_git |}
           {[ [lit "other"] := File (lit "keep") ]} [])).2 !! [lit "other"]
  = Some (File (lit "keep")).
Proof.
  destruct (run_stays_under_root my_app
              (start {| fault := deny_lib; exec := without_git |}
                 {[ [lit "other"] := File (lit "keep") ]} [])
              [lit "other"]) as (H & _).
  rewrite H; [reflexivity|].
  intros [rel Hrel]. destruct rel as [|a [|b rel]]; discriminate.
Defined.

Lemma prompt_loop_in (pending : list InputEvent) (w w' : World) (N : str) :
  prompt_loop pending w = (Ret N, w') -> Line N ∈ pending.
Proof.
  revert w. induction pending as [|[s|] rest IH]; intros w; cbn [prompt_loop];
    [discriminate| |discriminate].
  destruct (is_empty s); [intros ?%IH; by right|].
  destruct (is_valid_project_name s); [|intros ?%IH; by right].
  intros [= <- _]. by left.
Qed.

(** X12: the whole program either leaves the filesystem as it was, or it
    has read a line [N] that the validator accepts and has changed nothing
    outside the directory [N]. *)
Theorem main_writes_under_a_valid_name (w : World) :
  fs (main w).2 = fs w
  \/ exists N, Line N ∈ stdin w /\ is_valid_project_name N = true
       /\ forall p, ~ under N p -> fs (main w).2 !! p = fs w !! p.
Proof.
  unfold main. rewrite setup_cpp_project_eq. unfold bind.
  destruct (prompt_project_name (greeted w)) as [[N|x] w1] eqn:Hp.
  - right. exists N.
    pose proof (prompt_loop_frame _ _ _ _ Hp) as [_ Hf]. simpl in Hf.
    split; [by apply prompt_loop_in in Hp|].
    split; [by eapply prompt_loop_valid|].
    intros p Hu. rewrite <- Hf.
    pose proof (touched_run N w1 p) as Ht.
    destruct (scaffold_returns N w1) as (a & w' & Hrun).
    rewrite Hrun in *. simpl in *.
    destruct Ht as [E|[(_ & _ & Hin)|(c & Hin & _)]]; [done|..].
    + destruct Hu. by apply project_dirs_under.
    + destruct Hu. by apply generated_files_under with c.
  - left. pose proof (prompt_loop_frame _ _ _ _ Hp) as [_ Hf]. simpl in Hf.
    by destruct (isinstance x [KeyboardInterrupt]).
Qed.

(** ** The repository is initialised once, in the root *)

Lemma total_weaken {A} (P : World -> Prop) (Q Q' : A -> World -> Prop) (m : M A) :
  total P m Q -> (forall a w, Q a w -> Q' a w) -> total P m Q'.
Proof.
  intros Hm HQ w HP. destruct (Hm w HP) as (a & w' & Hw' & Hq). eauto.
Qed.

Lemma ran_logging (en : Env) l lv m a :
  total (ran en l) (logging lv m a) (fun _ => ran en l).
Proof. intros w [? ?]. by eexists _, _. Qed.

Lemma ran_create_directory (en : Env) l (p : Path) :
  total (ran en l) (create_directory p) (fun _ => ran en l).
Proof.
  intros w [? ?]. rewrite create_directory_eq.
  destruct (mkdir_parents _ _ _ _); by eexists _, _.
Qed.

Lemma ran_create_file (en : Env) l (p : Path) (c : str) :
  total (ran en l) (create_file p c) (fun _ => ran en l).
Proof.
  intros w [? ?]. rewrite create_file_eq.
  destruct (os_write _ _ _ _); by eexists _, _.
Qed.

Lemma ran_initialize_git_repo (en : Env) l (p : Path) :
  total (ran en l) (initialize_git_repo p)
    (fun _ => ran en (l ++ if git_ok en then [(GIT_INIT, p)] else [])).
Proof.
  intros w [<- <-]. rewrite initialize_git_repo_eq. unfold git_ok.
  destruct (exec _ _) as [status|]; [destruct (status =? 0)%Z|];
    eexists _, _; (split; [reflexivity|]); split; simpl;
    rewrite ?app_nil_r; reflexivity.
Qed.

Ltac ran_step :=
  cbv beta;
  lazymatch goal with
  | |- total _ (create_directory _) _ => apply ran_create_directory
  | |- total _ (create_file _ _) _ => apply ran_create_file
  | |- total _ (initialize_git_repo _) _ => apply ran_initialize_git_repo
  | |- total _ (logging _ _ _) _ => apply ran_logging
  | |- total _ (ret _) _ => apply total_ret
  | |- total _ (when _ _) _ => apply total_when
  | |- total _ (try_except _ _ _) _ => apply total_try_except
  | |- total _ (bind _ _) _ => eapply total_bind; [|intros ?]
  end.

(** X13: the only program a run completes is [git init], once, in the
    root directory of the project: [procs], the record of the programs
    that ended with status 0, gets that one entry when the root directory
    was made and git ended with status 0, and nothing otherwise; nothing
    in particular when the root directory cannot be made. *)
Theorem git_runs_once_in_the_root (N : str) (w : World) :
  procs (scaffold N w).2
  = procs w
    ++ (if answered_true (create_directory (Path_of N) w).1 && git_ok (env w)
        then [(GIT_INIT, Path_of N)] else []).
Proof.
  assert (Hrest : forall k : bool -> M unit,
            total (ran (env w) (procs w)) (k true)
              (fun _ => ran (env w)
                 (procs w ++ if git_ok (env w) then [(GIT_INIT, Path_of N)] else [])) ->
            total (ran (env w) (procs w)) (k false)
              (fun _ => ran (env w) (procs w)) ->
            procs (bind (create_directory (Path_of N)) k w).2
            = procs w
              ++ (if answered_true (create_directory (Path_of N) w).1
                     && git_ok (env w)
                  then [(GIT_INIT, Path_of N)] else [])).
  { intros k Htrue Hfalse. unfold bind. rewrite create_directory_eq.
    destruct (mkdir_parents _ _ _ _) as [e|f']; simpl.
    - destruct (Hfalse (add_log (directory_error (Path_of N) e) w))
        as (a & w' & -> & _ & Hp); [done|]. simpl in *. by rewrite Hp, app_nil_r.
    - destruct (Htrue (add_log (created_directory (Path_of N)) (set_fs f' w)))
        as (a & w' & -> & _ & Hp); [done|]. simpl in *. by rewrite Hp. }
  apply Hrest; cbn [negb];
    unfold create_cmake_files, logging_info, logging_warning, logging_error,
      SUBDIRS; cbn [for_each]; repeat ran_step.
Qed.

(** ** Running over a project that is there *)

Lemma at_fs_create_directory_existing (en : Env) (F : FS) (p : Path) :
  is_dir p F = true ->
  total (at_fs en F) (create_directory p)
    (fun ok w => ok = true /\ at_fs en F w).
Proof.
  intros Hd w [<- <-]. rewrite create_directory_existing by done.
  by eexists _, _.
Qed.

Lemma at_fs_create_file_over (en : Env) (F : FS) (name : str) (parent : Path)
    (c : str) :
  F !! (name :: parent) <> Some Dir -> is_dir parent F = true ->
  fault en (name :: parent) = None ->
  total (at_fs en F) (create_file (parent // name) c)
    (fun ok w => ok = true /\ at_fs en (<[name :: parent := File c]> F) w).
Proof.
  intros Hp Hd Hf w [<- <-]. unfold joinpath.
  rewrite create_file_eq. unfold os_write. rewrite Hd, Hf.
  destruct (fs w !! (name :: parent)) as [[|c0]|]; [done|..]; by eexists _, _.
Qed.

Section Existing.
Context (N : str) (en : Env) (F : FS).
Hypothesis Hnominal : nominal N en.
Hypothesis Hdirs : forall p, p ∈ project_dirs N -> F !! p = Some Dir.
Hypothesis Hfiles : forall p c, (p, c) ∈ generated_files N -> F !! p <> Some Dir.

Ltac over_side :=
  unfold is_dir, Path_of, joinpath;
  repeat (rewrite lookup_insert_ne by discriminate);
  first
    [ apply Hnominal; repeat first [apply under_root | apply under_cons]
    | rewrite Hdirs by (cbv [project_dirs SUBDIRS map Path_of joinpath]; in_list);
      reflexivity
    | eapply Hfiles; cbv [generated_files Path_of joinpath]; in_list ].

Ltac over_step :=
  cbv beta;
  lazymatch goal with
  | |- total (fun w => _ /\ _) _ _ => apply total_pure; intros ->; cbn [negb when]
  | |- total _ (create_directory _) _ =>
      apply at_fs_create_directory_existing; over_side
  | |- total _ (create_file _ _) _ => apply at_fs_create_file_over; over_side
  | |- total _ (initialize_git_repo _) _ => apply at_fs_initialize_git_repo
  | |- total _ (logging _ _ _) _ => apply at_fs_logging
  | |- total _ (ret _) _ => apply total_ret
  | |- total _ (when _ _) _ => apply total_when
  | |- total _ (try_except _ _ _) _ => apply total_try_except
  | |- total _ (bind _ _) _ => eapply total_bind; [|intros ?]
  end.

Lemma scaffold_existing :
  total (at_fs en F) (scaffold N)
    (fun _ => at_fs en (make_all (file_entries N) F)).
Proof using Hnominal Hdirs Hfiles.
  cbv [make_all file_entries generated_files map foldl fst snd].
  unfold scaffold, create_cmake_files. cbv zeta.
  unfold logging_info, logging_warning, logging_error, SUBDIRS.
  cbn [for_each].
  repeat over_step.
Qed.

End Existing.

Lemma file_entries_nodup (N : str) : NoDup (file_entries N).*1.
Proof.
  pose proof (project_tree_nodup N) as H. unfold project_tree in H.
  rewrite fmap_app in H. by apply NoDup_app in H as (_ & _ & H).
Qed.

Lemma file_entries_elem (N : str) (p : Path) (n : node) :
  (p, n) ∈ file_entries N <->
  exists c, n = File c /\ (p, c) ∈ generated_files N.
Proof.
  unfold file_entries. rewrite list_elem_of_fmap. split.
  - intros ([p' c] & [= -> ->] & Hin). eauto.
  - intros (c & -> & Hin). by exists (p, c).
Qed.

Lemma run_over_existing (N : str) (w : World) :
  nominal N (env w) ->
  (forall p, p ∈ project_dirs N -> fs w !! p = Some Dir) ->
  (forall p c, (p, c) ∈ generated_files N -> fs w !! p <> Some Dir) ->
  exists w' : World,
    scaffold N w = (Ret tt, w')
    /\ fs w' = list_to_map (file_entries N) ∪ fs w.
Proof.
  intros Hnom Hdirs Hfiles.
  destruct (scaffold_existing N (env w) (fs w) Hnom Hdirs Hfiles w)
    as ([] & w' & Hrun & _ & Hf); [done|].
  exists w'. split; [done|].
  by rewrite Hf, make_all_union by apply file_entries_nodup.
Qed.





(** ** What is reported when steps fail *)

Lemma since_app {A} (l0 : list A) (x : A) (l more : list A) :
  since l0 x l -> since l0 x (l ++ more).
Proof.
  intros (new & -> & Hin). exists (new ++ more).
  split; [by rewrite app_assoc|]. apply elem_of_app. by left.
Qed.

Lemma since_last {A} (l0 : list A) (x : A) (l : list A) :
  l0 `prefix_of` l -> since l0 x (l ++ [x]).
Proof.
  intros [new ->]. exists (new ++ [x]).
  split; [by rewrite app_assoc|]. apply elem_of_app. right.
  by apply list_elem_of_singleton.
Qed.

Lemma since_inv {A} (l0 : list A) (x : A) (new : list A) :
  since l0 x (l0 ++ new) -> x ∈ new.
Proof. intros (new' & Heq & Hin). by apply app_inv_head in Heq as ->. Qed.

Lemma preserves_or {A} (I J : World -> Prop) (m : M A) :
  preserves I m -> preserves J m -> preserves (fun w => I w \/ J w) m.
Proof. intros HI HJ w r w' [H|H] Hrun; [left|right]; eauto. Qed.

Lemma preserves_total {A} (I : World -> Prop) (m : M A) :
  preserves I m -> returns m -> total I m (fun _ => I).
Proof.
  intros Hp Hr w HI. destruct (Hr w) as (a & w' & Hw'). exists a, w'.
  split; [done|]. by eapply Hp.
Qed.

Lemma total_then {A B} (P Q : World -> Prop) (m : M A) (k : A -> M B) :
  total P m (fun _ => Q) ->
  (forall a, preserves Q (k a)) -> (forall a, returns (k a)) ->
  total P (bind m k) (fun _ => Q).
Proof.
  intros Hm Hk Hr. eapply total_bind; [exact Hm|].
  intros a. by apply preserves_total.
Qed.

Lemma total_skip {A B} (P : World -> Prop) (Q : B -> World -> Prop)
    (m : M A) (k : A -> M B) :
  preserves P m -> returns m -> (forall a, total P (k a) Q) ->
  total P (bind m k) Q.
Proof.
  intros Hp Hr Hk. eapply total_bind; [|exact Hk]. by apply preserves_total.
Qed.

(** One turn of a loop establishes [Q]; the other turns keep it. *)
Lemma for_each_establishes {A} (P Q : World -> Prop) (l : list A)
    (body : A -> M unit) (x : A) :
  x ∈ l ->
  (forall y, returns (body y)) ->
  (forall y, preserves P (body y)) ->
  (forall y, preserves Q (body y)) ->
  total P (body x) (fun _ => Q) ->
  total P (for_each l body) (fun _ => Q).
Proof.
  intros Hin Hr HP HQ Hx. induction l as [|y l IH]; [by apply elem_of_nil in Hin|].
  cbn [for_each]. apply elem_of_cons in Hin as [<-|Hin].
  - apply total_then; [done|..]; intros _.
    + apply preserves_for_each. auto.
    + by apply for_each_returns.
  - apply total_skip; auto.
Qed.

(** The wrappers only add to the log, and keep the environment. *)
Lemma since_logging (l0 : list LogRecord) (r : LogRecord) lv m a :
  preserves (fun w => since l0 r (log w)) (logging lv m a).
Proof. apply preserves_logging. intros w. apply since_app. Qed.

Lemma since_create_directory (l0 : list LogRecord) (r : LogRecord) (q : Path) :
  preserves (fun w => since l0 r (log w)) (create_directory q).
Proof.
  intros w x w' HI. rewrite create_directory_eq.
  destruct (mkdir_parents _ _ _ _); intros [= <- <-]; by apply since_app.
Qed.

Lemma since_create_file (l0 : list LogRecord) (r : LogRecord) (q : Path) (c : str) :
  preserves (fun w => since l0 r (log w)) (create_file q c).
Proof.
  intros w x w' HI. rewrite create_file_eq.
  destruct (os_write _ _ _ _); intros [= <- <-]; by apply since_app.
Qed.

Lemma since_initialize_git_repo (l0 : list LogRecord) (r : LogRecord) (q : Path) :
  preserves (fun w => since l0 r (log w)) (initialize_git_repo q).
Proof.
  intros w x w' HI. rewrite initialize_git_repo_eq.
  destruct (exec _ _) as [status|]; [destruct (status =? 0)%Z|];
    intros [= <- <-]; by apply since_app.
Qed.

Lemma later_add_log (en : Env) (l0 : list LogRecord) (r : LogRecord) (w : World) :
  later en l0 w -> later en l0 (add_log r w).
Proof. intros [? ?]. split; [done|]. by apply prefix_app_r. Qed.

Lemma later_logging (en : Env) (l0 : list LogRecord) lv m a :
  preserves (later en l0) (logging lv m a).
Proof. apply preserves_logging. intros w. apply later_add_log. Qed.

Lemma later_create_directory (en : Env) (l0 : list LogRecord) (q : Path) :
  preserves (later en l0) (create_directory q).
Proof.
  intros w x w' HI. rewrite create_directory_eq.
  destruct (mkdir_parents _ _ _ _); intros [= <- <-]; by apply later_add_log.
Qed.

Lemma later_create_file (en : Env) (l0 : list LogRecord) (q : Path) (c : str) :
  preserves (later en l0) (create_file q c).
Proof.
  intros w x w' HI. rewrite create_file_eq.
  destruct (os_write _ _ _ _); intros [= <- <-]; by apply later_add_log.
Qed.

Lemma later_initialize_git_repo (en : Env) (l0 : list LogRecord) (q : Path) :
  preserves (later en l0) (initialize_git_repo q).
Proof.
  intros w x w' HI. rewrite initialize_git_repo_eq.
  destruct (exec _ _) as [status|]; [destruct (status =? 0)%Z|];
    intros [= <- <-]; by apply later_add_log.
Qed.

(** An entry that is there stays: a directory always, a file as long as
    no other content is written to its path. *)
Lemma entry_logging (p : Path) (n : node) lv m a :
  preserves (fun w => fs w !! p = Some n) (logging lv m a).
Proof. by apply preserves_logging. Qed.

Lemma entry_create_directory (p : Path) (n : node) (q : Path) :
  preserves (fun w => fs w !! p = Some n) (create_directory q).
Proof.
  intros w x w' HI. rewrite create_directory_eq.
  destruct (mkdir_parents _ _ _ _) as [e|f'] eqn:Hmk; intros [= <- <-]; [done|].
  simpl. apply mkdir_parents_grows in Hmk.
  destruct (Hmk p) as [->|[Hn _]]; congruence.
Qed.

Lemma entry_create_file (p : Path) (n : node) (q : Path) (c : str) :
  n = Dir \/ q <> p ->
  preserves (fun w => fs w !! p = Some n) (create_file q c).
Proof.
  intros Hside w x w' HI. rewrite create_file_eq.
  destruct (os_write _ _ _ _) as [e|f'] eqn:Hwr; intros [= <- <-]; [done|].
  apply os_write_inr in Hwr as (name & parent & -> & _ & Hnd & _ & ->).
  simpl. rewrite lookup_insert_ne; [done|].
  intros <-. destruct Hside as [->|Hne]; done.
Qed.

Lemma entry_initialize_git_repo (p : Path) (n : node) (q : Path) :
  preserves (fun w => fs w !! p = Some n) (initialize_git_repo q).
Proof.
  intros w x w' HI. rewrite initialize_git_repo_eq.
  destruct (exec _ _) as [status|]; [destruct (status =? 0)%Z|];
    by intros [= <- <-].
Qed.

Lemma preserves_const {A} (X : Prop) (m : M A) : preserves (fun _ => X) m.
Proof. by intros w r w' HX _. Qed.

Ltac later_leaf :=
  first
    [ apply later_create_directory
    | apply later_create_file
    | apply later_initialize_git_repo
    | apply later_logging ].

Ltac since_leaf :=
  first
    [ apply since_create_directory
    | apply since_create_file
    | apply since_initialize_git_repo
    | apply since_logging ].

Ltac entry_leaf :=
  first
    [ apply entry_create_directory
    | apply entry_initialize_git_repo
    | apply entry_logging
    | apply entry_create_file;
      first [ left; reflexivity
            | right; unfold Path_of, joinpath; discriminate ]
    | apply preserves_const ].

Ltac kept_leaf := apply preserves_or; [entry_leaf | since_leaf].

(** A directory is made, or the orchestrator warns. *)
Lemma create_directory_or_warn (en : Env) (l0 : list LogRecord)
    (name : str) (parent : Path) m a :
  total (later en l0)
    (ok <- create_directory (parent // name) ;;
     when (negb ok) (logging WARNING m a))
    (fun _ w =>
       fs w !! (parent // name) = Some Dir
       \/ since l0 {| levelname := WARNING; msg := m; args := a |} (log w)).
Proof.
  intros w [_ Hl]. unfold bind, joinpath. rewrite create_directory_eq.
  destruct (mkdir_parents _ _ _ _) as [e|f'] eqn:Hmk; cbn [negb when].
  - eexists _, _. split; [reflexivity|]. right.
    apply since_last. by apply prefix_app_r.
  - eexists _, _. split; [reflexivity|]. left.
    apply mkdir_parents_is_dir in Hmk. simpl in *.
    by destruct (f' !! (name :: parent)) as [[|?]|].
Qed.

(** A file is written, or the orchestrator warns. *)
Lemma create_file_or_warn (en : Env) (l0 : list LogRecord) (p : Path)
    (c m : str) (rest : M unit) :
  preserves (fun w => fs w !! p = Some (File c)
                      \/ since l0 (warning m) (log w)) rest ->
  returns rest ->
  total (later en l0)
    (ok <- create_file p c ;; when (negb ok) (logging WARNING m []) ;; rest)
    (fun _ w => fs w !! p = Some (File c) \/ since l0 (warning m) (log w)).
Proof.
  intros Hrest Hret w [_ Hl]. unfold bind at 1. rewrite create_file_eq.
  destruct (os_write _ _ _ _) as [e|f'] eqn:Hwr; cbn [negb when];
    unfold bind, logging, ret;
    match goal with
    | |- context [rest ?w1] =>
        destruct (Hret w1) as (u & w' & Hw'); rewrite Hw'; exists u, w';
        (split; [reflexivity|]); eapply Hrest; [|exact Hw']
    end.
  - right. apply since_last. by apply prefix_app_r.
  - left. apply os_write_inr in Hwr as (? & ? & -> & _ & _ & _ & ->).
    simpl. by rewrite lookup_insert_eq.
Qed.

(** The repository is initialised, or the orchestrator warns. *)
Lemma initialize_git_repo_or_warn (en : Env) (l0 : list LogRecord) (p : Path)
    (m : str) (rest : M unit) :
  preserves (fun w => git_ok en = true \/ since l0 (warning m) (log w)) rest ->
  returns rest ->
  total (later en l0)
    (ok <- initialize_git_repo p ;; when (negb ok) (logging WARNING m []) ;; rest)
    (fun _ w => git_ok en = true \/ since l0 (warning m) (log w)).
Proof.
  intros Hrest Hret w [<- Hl]. unfold bind at 1.
  rewrite initialize_git_repo_eq.
  assert (Hok : forall status, exec (env w) GIT_INIT = Some status ->
                  (status =? 0)%Z = true -> git_ok (env w) = true).
  { intros status H1 H2. unfold git_ok. by rewrite H1. }
  destruct (exec _ _) as [status|] eqn:He;
    [destruct (status =? 0)%Z eqn:Hs|];
    cbn [negb when]; unfold bind, logging, ret;
    match goal with
    | |- context [rest ?w1] =>
        destruct (Hret w1) as (u & w' & Hw'); rewrite Hw'; exists u, w';
        (split; [reflexivity|]); eapply Hrest; [|exact Hw']
    end;
    first [ left; by eapply Hok
          | right; apply since_last; by apply prefix_app_r ].
Qed.

(** The run after the root directory was made. *)
Lemma scaffold_item (N : str) (w : World) (k : bool -> M unit)
    (Q : World -> Prop) :
  scaffold N = bind (create_directory (Path_of N)) k ->
  answered_true (create_directory (Path_of N) w).1 = true ->
  total (later (env w) (log w)) (k true) (fun _ => Q) ->
  Q (scaffold N w).2.
Proof.
  intros -> Hroot Hk. unfold bind. revert Hroot. rewrite create_directory_eq.
  destruct (mkdir_parents _ _ _ _) as [e|f']; [discriminate|]. intros _.
  destruct (Hk (add_log (created_directory (Path_of N)) (set_fs f' w)))
    as (u & w' & Hw' & HQ); [|by rewrite Hw'].
  split; [done|]. by apply prefix_app_r.
Qed.

Ltac open_scaffold :=
  eapply scaffold_item; [reflexivity|eassumption|];
  cbv beta zeta; cbn [negb];
  unfold create_cmake_files, logging_info, logging_warning, logging_error.

Ltac skip_step :=
  apply total_skip; [walk later_leaf | returns_walk | intros ?].

Ltac warned_step :=
  cbv beta;
  lazymatch goal with
  | |- total _ (bind (create_file ?p _) _) (fun _ w => fs w !! ?p = _ \/ _) =>
      apply create_file_or_warn; [walk kept_leaf | returns_walk]
  | |- total _ (bind (initialize_git_repo _) _) (fun _ w => git_ok _ = _ \/ _) =>
      apply initialize_git_repo_or_warn; [walk kept_leaf | returns_walk]
  | |- total _ (bind _ _) _ => skip_step
  end.



Lemma logging_reported_first (en : Env) (l0 : list LogRecord) lv m a :
  total (later en l0) (logging lv m a)
    (fun _ => reported l0 [{| levelname := lv; msg := m; args := a |}]).
Proof.
  intros w [_ [new Hnew]]. eexists _, _. split; [reflexivity|].
  exists new. simpl. by rewrite Hnew, app_assoc.
Qed.

Lemma logging_reported (l0 l : list LogRecord) lv m a :
  total (reported l0 l) (logging lv m a)
    (fun _ => reported l0 (l ++ [{| levelname := lv; msg := m; args := a |}])).
Proof.
  intros w [before Hlog]. eexists _, _. split; [reflexivity|].
  exists before. simpl. by rewrite Hlog, !app_assoc.
Qed.

Ltac report_tail :=
  cbv beta;
  lazymatch goal with
  | |- total (later _ _)
         (bind (logging INFO (LF :: lit "Project setup complete!") []) _) _ =>
      eapply total_bind; [apply logging_reported_first|intros ?]
  | |- total (later _ _) (bind _ _) _ => skip_step
  | |- total (reported _ _) (bind _ _) _ => eapply total_bind; [|intros ?]
  | |- total (reported _ _) (logging _ _ _) _ => apply logging_reported
  | |- total (reported _ _) (ret _) _ => apply total_ret
  end.



(** X18: when the root directory cannot be made the run stops there:
    nothing is created, no program is recorded as run, no input is read,
    and the log gets two error records, the one of [create_directory] and "Setup
    aborted". The cause is a file with the name of the project, or a
    refusal of the operating system where nothing was. *)
Theorem root_failure_aborts (N : str) (w : World) :
  answered_true (create_directory (Path_of N) w).1 = false ->
  exists (w' : World) (e : errno),
    scaffold N w = (Ret tt, w')
    /\ fs w' = fs w /\ procs w' = procs w /\ stdin w' = stdin w
    /\ log w' = log w ++ [directory_error (Path_of N) e; setup_aborted]
    /\ ((e = EEXIST /\ exists c, fs w !! Path_of N = Some (File c))
        \/ (fs w !! Path_of N = None /\ fault (env w) (Path_of N) = Some e)).
Proof.
  intros Hroot. rewrite create_directory_eq in Hroot.
  assert (Hcause : exists e,
            mkdir_parents (env w) true (Path_of N) (fs w) = inl e
            /\ ((e = EEXIST /\ exists c, fs w !! Path_of N = Some (File c))
                \/ (fs w !! Path_of N = None
                    /\ fault (env w) (Path_of N) = Some e))).
  { revert Hroot. unfold Path_of. cbn [mkdir_parents os_mkdir is_dir].
    destruct (fs w !! [N]) as [[|c]|] eqn:Hp; simpl.
    - discriminate.
    - intros _. exists EEXIST. split; [done|]. left. eauto.
    - destruct (fault (env w) [N]) as [e|] eqn:Hf; [|discriminate].
      intros _. exists e. split; [|by right].
      destruct e; simpl; try done.
      unfold mkdir_single. cbn [os_mkdir is_dir]. by rewrite Hp, Hf. }
  destruct Hcause as (e & Hmk & Hcause).
  exists (add_log setup_aborted (add_log (directory_error (Path_of N) e) w)), e.
  split.
  { apply scaffold_aborted. by rewrite create_directory_eq, Hmk. }
  split; [done|]. split; [done|]. split; [done|].
  split; [simpl; by rewrite <- app_assoc|done].
Qed.

Lemma root_failure_aborts_witness :
  exists (w' : World) (e : errno),
    scaffold my_app world_read_only = (Ret tt, w')
    /\ fs w' = fs world_read_only /\ procs w' = procs world_read_only
    /\ stdin w' = stdin world_read_only
    /\ log w' = log world_read_only
                ++ [directory_error (Path_of my_app) e; setup_aborted]
    /\ ((e = EEXIST /\ exists c, fs world_read_only !! Path_of my_app = Some (File c))
        \/ (fs world_read_only !! Path_of my_app = None
            /\ fault (env world_read_only) (Path_of my_app) = Some e)).
Proof.
  apply (root_failure_aborts my_app world_read_only).
  vm_compute. reflexivity.
Defined.
